(** * hab-client: the argument marshaller and process executor of [Hab.exec]

    A shallow embedding of [lib/Hab.js].  The JavaScript values that reach
    [exec] are a closed datatype, the caller's objects live in a store indexed
    by location (so that the deletions [exec] performs on them are visible to
    the caller and to aliases), and the two objects [exec] builds itself,
    [execOptions] and [commandEnv], are dictionaries with a prototype slot. *)

From Stdlib Require Import ZArith Ascii Bool Lia.
From stdpp Require Import base option list gmap strings pretty.

Open Scope Z_scope.
Open Scope nat_scope.

(** ** JavaScript values *)

Module Js.

(** Locations of objects in the store. *)
Abbreviation loc := nat (only parsing).

(** The integers that a number holds exactly and that [toString()] prints
    digit by digit: those of magnitude below 2^53. *)
Definition safe_integer (z : Z) : bool := (Z.abs z <? 2 ^ 53)%Z.

(** Numbers.  [exec] only asks a number for its truthiness and for
    [toString()], so a safe integer is kept as the integer it is, NaN and the
    infinities are themselves, and any other finite number (a fraction, or an
    integral value of magnitude 2^53 or more, which [toString()] prints with
    the shortest digits that give the number back, [2 ** 64] as
    [18446744073709552000]) is carried with the text [toString()] yields for
    it. *)
Inductive number : Type :=
| NInt (z : Z) (safe : Is_true (safe_integer z))
| NNaN
| NInf (negative : bool)
| NFrac (text : string).

Inductive value : Type :=
| VUndefined
| VNull
| VBool (b : bool)
| VNum (n : number)
| VStr (s : string)
| VBigInt (z : Z)
| VSymbol (id : nat)
| VObj (l : loc)
| VFunc (l : loc).

(** The results of the [typeof] operator. *)
Inductive type_tag : Type :=
| TUndefined | TObject | TBoolean | TNumber | TString
| TBigInt | TSymbol | TFunction.

Definition typeof (v : value) : type_tag :=
  match v with
  | VUndefined => TUndefined
  | VNull => TObject
  | VBool _ => TBoolean
  | VNum _ => TNumber
  | VStr _ => TString
  | VBigInt _ => TBigInt
  | VSymbol _ => TSymbol
  | VObj _ => TObject
  | VFunc _ => TFunction
  end.

Definition number_truthy (n : number) : bool :=
  match n with
  | NInt z _ => negb (z =? 0)%Z
  | NNaN => false
  | NInf _ => true
  | NFrac _ => true
  end.

(** ToBoolean: what [while (arg = ...)], [if (command)], [!command] and
    [Boolean(...)] test. *)
Definition truthy (v : value) : bool :=
  match v with
  | VUndefined | VNull => false
  | VBool b => b
  | VNum n => number_truthy n
  | VStr s => negb (String.eqb s "")
  | VBigInt z => negb (z =? 0)%Z
  | VSymbol _ | VObj _ | VFunc _ => true
  end.

(** [v === true] and [v === false]. *)
Definition is_true (v : value) : bool :=
  match v with VBool true => true | _ => false end.

Definition is_false (v : value) : bool :=
  match v with VBool false => true | _ => false end.

Definition number_to_string (n : number) : string :=
  match n with
  | NInt z _ => pretty z
  | NNaN => "NaN"
  | NInf false => "Infinity"
  | NInf true => "-Infinity"
  | NFrac text => text
  end.

(** ** Objects and the store

    The caller's objects are plain objects: own, enumerable, configurable data
    properties, listed in the order [for ... in] visits them.  Deleting a key
    keeps the order of the others. *)

Abbreviation props := (list (string * value)) (only parsing).
Abbreviation heap := (gmap nat (list (string * value))) (only parsing).

(** An object reference always points at an object; a location the store
    does not hold reads as an object without properties. *)
Definition heap_get (h : heap) (l : loc) : props := default [] (h !! l).

(** [key in o] *)
Definition has_key (key : string) (o : props) : bool :=
  bool_decide (key ∈ o.*1).

(** [o[key]], [undefined] when absent. *)
Fixpoint get_prop (key : string) (o : props) : value :=
  match o with
  | [] => VUndefined
  | (k, v) :: rest => if decide (k = key) then v else get_prop key rest
  end.

(** [delete o[key]] *)
Definition delete_prop (key : string) (o : props) : props :=
  filter (λ kv, kv.1 ≠ key) o.

(** The keys [for (let key in o)] visits. *)
Definition keys (o : props) : list string := o.*1.

(** [for (let key in v)] paired with [v[key]]: the properties of an object or
    function, the indices and characters of a string, nothing for the other
    primitives ([null] and [undefined] included). *)
Definition enumerate (h : heap) (v : value) : props :=
  match v with
  | VObj l | VFunc l =>
      let o := heap_get h l in (λ k, (k, get_prop k o)) <$> keys o
  | VStr s =>
      imap (λ i c, (pretty i, VStr (String c ""))) (String.list_ascii_of_string s)
  | _ => []
  end.

(** ** Dictionaries built by [exec]

    [execOptions] and [commandEnv] start as object literals, so they inherit
    from [Object.prototype]; an assignment to the key [__proto__] then runs the
    inherited setter, which replaces the prototype by an object or [null] and
    ignores any other value. *)
Inductive proto : Type :=
| ProtoObject             (* Object.prototype *)
| ProtoNull
| ProtoAt (l : loc)       (* an object of the store *)
| ProtoEnv.               (* process.env *)

Record dict : Type := Dict {
  d_own : gmap string value;
  d_proto : proto
}.

Definition dict_set (key : string) (v : value) (d : dict) : dict :=
  if decide (key = "__proto__") then
    match d_proto d with
    | ProtoNull => Dict (<[key := v]> (d_own d)) (d_proto d)
    | _ =>
        match v with
        | VObj l | VFunc l => Dict (d_own d) (ProtoAt l)
        | VNull => Dict (d_own d) ProtoNull
        | _ => d
        end
    end
  else Dict (<[key := v]> (d_own d)) (d_proto d).

(** [d.key] for the option names [exec] reads: an own property, else the
    property of a prototype taken from the store. *)
Definition dict_get (h : heap) (key : string) (d : dict) : value :=
  match d_own d !! key with
  | Some v => v
  | None =>
      match d_proto d with
      | ProtoAt l => get_prop key (heap_get h l)
      | _ => VUndefined
      end
  end.

(** ToString of a primitive, as [toString()] and string conversion compute
    it.  The conversion of an object runs code of the object, and that of a
    symbol throws: both are left to the caller ([None]). *)
Definition to_string (v : value) : option string :=
  match v with
  | VUndefined => Some "undefined"
  | VNull => Some "null"
  | VBool true => Some "true"
  | VBool false => Some "false"
  | VNum n => Some (number_to_string n)
  | VStr s => Some s
  | VBigInt z => Some (pretty z)
  | VSymbol _ | VObj _ | VFunc _ => None
  end.

End Js.

(** ** Text primitives: [trim], [split] and the version pattern

    A string is its sequence of code units; the embedding covers the code
    units below 256. *)

Module Text.

(** The white space of [trim] and of the class [\s] (tab, line feed, vertical
    tab, form feed, carriage return, space, no-break space). *)
Definition is_space (c : ascii) : bool :=
  match c with
  | "009" | "010" | "011" | "012" | "013" | " " | "160" => true
  | _ => false
  end%char.

Definition is_newline (c : ascii) : bool :=
  match c with "010"%char => true | _ => false end.

Definition is_digit (c : ascii) : bool :=
  match c with
  | "0" | "1" | "2" | "3" | "4" | "5" | "6" | "7" | "8" | "9" => true
  | _ => false
  end%char.

Definition is_slash (c : ascii) : bool :=
  match c with "/"%char => true | _ => false end.

Fixpoint drop_space (s : list ascii) : list ascii :=
  match s with
  | [] => []
  | c :: rest => if is_space c then drop_space rest else s
  end.

(** [s.trim()] *)
Definition trim (s : string) : string :=
  String.string_of_list_ascii
    (rev (drop_space (rev (drop_space (String.list_ascii_of_string s))))).

(** Puts a character in front of the first piece of a split. *)
Definition cons_head (c : ascii) (pieces : list string) : list string :=
  match pieces with
  | [] => [String c ""]
  | p :: ps => String c p :: ps
  end.

(** [s.split(/\n/)] *)
Fixpoint split_newline (s : string) : list string :=
  match s with
  | EmptyString => [""]
  | String c rest =>
      if is_newline c then "" :: split_newline rest
      else cons_head c (split_newline rest)
  end.

Definition starts_with_space (s : string) : bool :=
  match s with
  | String c _ => is_space c
  | EmptyString => false
  end.

(** [s.split(/\s{2,}/)]: the separators are the maximal runs of two or more
    white-space characters.  [in_gap] holds while such a run is being
    skipped. *)
Fixpoint split_gaps_from (in_gap : bool) (s : string) : list string :=
  match s with
  | EmptyString => [""]
  | String c rest =>
      if is_space c then
        if in_gap then split_gaps_from true rest
        else if starts_with_space rest then "" :: split_gaps_from true rest
        else cons_head c (split_gaps_from false rest)
      else cons_head c (split_gaps_from false rest)
  end.

Definition split_gaps (s : string) : list string := split_gaps_from false s.

(** [s] without the prefix [p], when it has it. *)
Fixpoint strip_prefix (p s : string) : option string :=
  match p, s with
  | EmptyString, _ => Some s
  | String a p', String b s' => if Ascii.eqb a b then strip_prefix p' s' else None
  | String _ _, EmptyString => None
  end.

(** The text before the first slash and the text after it. *)
Fixpoint break_slash (s : string) : option (string * string) :=
  match s with
  | EmptyString => None
  | String c rest =>
      if is_slash c then Some ("", rest)
      else match break_slash rest with
           | Some (v, b) => Some (String c v, b)
           | None => None
           end
  end.

Fixpoint all_digits (s : string) : bool :=
  match s with
  | EmptyString => true
  | String c rest => is_digit c && all_digits rest
  end.

Definition nonempty (s : string) : bool :=
  match s with EmptyString => false | String _ _ => true end.

(** [/^hab ([^\/]+)\/(\d+)$/.exec(s)]: the two groups of the match, or
    [None] for [null]. *)
Definition match_version (s : string) : option (string * string) :=
  match strip_prefix "hab " s with
  | None => None
  | Some rest =>
      match break_slash rest with
      | None => None
      | Some (v, b) =>
          if nonempty v && nonempty b && all_digits b then Some (v, b) else None
      end
  end.

End Text.

(** ** The class [Hab] *)

Module Hab.
Import Js Text.

(** What [exec] can throw before it launches anything: the string
    ['unhandled exec argument'], or a [TypeError] of the language. *)
Inductive exn : Type :=
| UnhandledExecArgument
| TypeError.

(** The local variables of [exec] during the scan of its arguments. *)
Record scan_state : Type := ScanState {
  command : value;
  commandArgs : list value;
  commandEnv : dict;
  execOptions : dict
}.

Definition with_command (v : value) (st : scan_state) : scan_state :=
  ScanState v (commandArgs st) (commandEnv st) (execOptions st).

(** [commandArgs.push(...vs)] *)
Definition push_args (vs : list value) (st : scan_state) : scan_state :=
  ScanState (command st) (commandArgs st ++ vs) (commandEnv st) (execOptions st).

Definition with_args (vs : list value) (st : scan_state) : scan_state :=
  ScanState (command st) vs (commandEnv st) (execOptions st).

(** [execOptions[key] = v] *)
Definition set_option (key : string) (v : value) (st : scan_state) : scan_state :=
  ScanState (command st) (commandArgs st) (commandEnv st)
            (dict_set key v (execOptions st)).

(** [commandEnv[key] = v] *)
Definition set_env (key : string) (v : value) (st : scan_state) : scan_state :=
  ScanState (command st) (commandArgs st) (dict_set key v (commandEnv st))
            (execOptions st).

(** [arg.toString()] in the string and number cases. *)
Definition arg_to_string (arg : value) : string := default "" (to_string arg).

(** One [if (key in arg) { ...; delete arg[key]; }] block of the object case:
    [body] is run on [arg[key]] with the store as it is before the deletion,
    and the deletion is kept out for the one block that has none. *)
Definition directive (key : string) (body : value → heap → scan_state → scan_state)
    (deletes : bool) (l : loc) (hs : heap * scan_state) : heap * scan_state :=
  let '(h, st) := hs in
  let arg := heap_get h l in
  if has_key key arg then
    (if deletes then <[l := delete_prop key arg]> h else h,
     body (get_prop key arg) h st)
  else (h, st).

Definition take_nullOnError (v : value) (h : heap) (st : scan_state) : scan_state :=
  set_option "nullOnError" v st.

Definition take_spawn (v : value) (h : heap) (st : scan_state) : scan_state :=
  set_option "spawn" v st.

Definition take_shell (v : value) (h : heap) (st : scan_state) : scan_state :=
  set_option "shell" v st.

(** [for (let key in arg.$env) commandEnv[key] = arg.$env[key];] *)
Definition take_env (v : value) (h : heap) (st : scan_state) : scan_state :=
  foldl (λ acc kv, set_env kv.1 kv.2 acc) st (enumerate h v).

Definition take_preserveEnv (v : value) (h : heap) (st : scan_state) : scan_state :=
  set_option "preserveEnv" v st.

(** [for (let key in arg.$options) execOptions[key] = arg.$options[key];] *)
Definition take_options (v : value) (h : heap) (st : scan_state) : scan_state :=
  foldl (λ acc kv, set_option kv.1 kv.2 acc) st (enumerate h v).

(** [if (execOptions.passthrough = Boolean(arg.$passthrough)) execOptions.spawn = true;] *)
Definition take_passthrough (v : value) (h : heap) (st : scan_state) : scan_state :=
  let st' := set_option "passthrough" (VBool (truthy v)) st in
  if truthy v then set_option "spawn" (VBool true) st' else st'.

Definition take_wait (v : value) (h : heap) (st : scan_state) : scan_state :=
  set_option "wait" (VBool (truthy v)) st.

(** The body of the loop over the remaining keys, for one key and its value. *)
Definition push_flag (key : string) (v : value) (args : list value) : list value :=
  if String.length key =? 1 then
    if is_true v then args ++ [VStr ("-" +:+ key)]
    else if negb (is_false v) then args ++ [VStr ("-" +:+ key); v]
    else args
  else
    if is_true v then args ++ [VStr ("--" +:+ key)]
    else if negb (is_false v) then args ++ [VStr ("--" +:+ key); v]
    else args.

(** [for (let key in arg) { const value = arg[key]; ... }] *)
Definition push_flags (arg : props) (args : list value) : list value :=
  foldl (λ acc key, push_flag key (get_prop key arg) acc) args (keys arg).

(** The [case 'object'] of the switch, for the object at [l]. *)
Definition scan_object (l : loc) (h : heap) (st : scan_state) : heap * scan_state :=
  let hs := directive "$nullOnError" take_nullOnError true l (h, st) in
  let hs := directive "$spawn" take_spawn true l hs in
  let hs := directive "$shell" take_shell true l hs in
  let hs := directive "$env" take_env true l hs in
  let hs := directive "$preserveEnv" take_preserveEnv true l hs in
  let hs := directive "$options" take_options false l hs in
  let hs := directive "$passthrough" take_passthrough true l hs in
  let hs := directive "$wait" take_wait true l hs in
  (hs.1, with_args (push_flags (heap_get hs.1 l) (commandArgs hs.2)) hs.2).

(** [while (arg = args.shift()) { switch (typeof arg) { ... } }] *)
Fixpoint scan (args : list value) (h : heap) (st : scan_state)
    : heap * (exn + scan_state) :=
  match args with
  | [] => (h, inr st)
  | arg :: args' =>
      if truthy arg then
        match typeof arg with
        | TString =>
            if negb (truthy (command st)) then scan args' h (with_command arg st)
            else scan args' h (push_args [VStr (arg_to_string arg)] st)
        | TNumber => scan args' h (push_args [VStr (arg_to_string arg)] st)
        | TObject =>
            match arg with
            | VObj l => let '(h', st') := scan_object l h st in scan args' h' st'
            | _ => (h, inl TypeError)
            end
        | _ => (h, inl UnhandledExecArgument)
        end
      else (h, inr st)
  end.

(** [{ maxBuffer: 1024 * 1024 }] *)
Definition initial_options : dict :=
  Dict {[ "maxBuffer" := VNum (NInt 1048576 I) ]} ProtoObject.

Definition initial_state : scan_state :=
  ScanState VUndefined [] (Dict ∅ ProtoObject) initial_options.

(** [if (command) commandArgs.unshift(command);] *)
Definition prefix_command (st : scan_state) : list value :=
  if truthy (command st) then command st :: commandArgs st else commandArgs st.

(** [if (execOptions.preserveEnv !== false) Object.setPrototypeOf(commandEnv, process.env);] *)
Definition prepare_env (h : heap) (st : scan_state) : dict :=
  if negb (is_false (dict_get h "preserveEnv" (execOptions st)))
  then Dict (d_own (commandEnv st)) ProtoEnv
  else commandEnv st.

(** [execOptions.env = commandEnv] replaces whatever [execOptions] held under
    [env]: what is left of it are the other properties. *)
Definition without_env (d : dict) : dict :=
  Dict (delete "env" (d_own d)) (d_proto d).

(** What [exec] hands to [child_process]: the binary, the argument vector and
    [execOptions], kept as its property [env], which is [commandEnv], and
    its other properties. *)
Record request : Type := Request {
  rq_file : string;
  rq_args : list value;
  rq_options : dict;
  rq_env : dict
}.

(** A property of [execOptions] as [child_process] finds it. *)
Inductive handed : Type :=
| HandedValue (v : value)
| HandedEnv (env : dict).

Definition rq_option (h : heap) (rq : request) (key : string) : handed :=
  if decide (key = "env") then HandedEnv (rq_env rq)
  else HandedValue (dict_get h key (rq_options rq)).

Inductive launch : Type :=
| Spawn (rq : request) (passthrough wait : bool)
    (* child_process.spawn(this.command, commandArgs, execOptions) *)
| ExecShell (line : string) (rq : request)
    (* child_process.exec(line, execOptions, callback) *)
| ExecFile (rq : request).
    (* child_process.execFile(this.command, commandArgs, execOptions, callback) *)

(** An output of the process as the callback receives it: a string, or a
    [Buffer] of the bytes when the option [encoding] asks for one. *)
Inductive output : Type :=
| Text (s : string)
| Buffer (bytes : string).

(** The error object [child_process] passes to the callback; [error.stderr]
    is absent until [exec] attaches it. *)
Record error : Type := Error {
  err_message : string;
  err_stderr : option output
}.

(** What a binary run to its end gives: the error for the callback, if any,
    and the standard output and the standard error of the process, as text
    in the encoding asked for, or their bytes when they are delivered as
    [Buffer]s. *)
Record proc_result : Type := ProcResult {
  pr_error : option error;
  pr_stdout : string;
  pr_stderr : string
}.

(** The exit code of the ['exit'] event: a number, or [null] when a signal
    ended the child. *)
Abbreviation exit_code := (option Z) (only parsing).

(** What the surroundings of the program decide: how an object prints (its
    own [toString], [None] when that throws), what a binary run to completion
    answers, which encodings [Buffer.isEncoding] knows, and how a spawned
    child exits: with the code of its ['exit'] event, or not at all ([None])
    when it could not be started and emits ['error'] only. *)
Record runtime : Type := Runtime {
  object_string : heap → loc → option string;
  capture_result : launch → proc_result;
  is_encoding : value → bool;
  exit_of : launch → option exit_code
}.

(** [child_process] passes the outputs to the callback as [Buffer]s, not as
    strings, when the option [encoding] is ['buffer'] or no encoding that
    [Buffer.isEncoding] knows; an own property counts, and without one the
    encoding is ['utf8']. *)
Definition buffer_output (rt : runtime) (opts : dict) : bool :=
  match d_own opts !! "encoding" with
  | None => false
  | Some (VStr "buffer") => true
  | Some v => negb (is_encoding rt v)
  end.

Definition delivered (rt : runtime) (opts : dict) (out : string) : output :=
  if buffer_output rt opts then Buffer out else Text out.

(** String conversion of any value, [None] when it throws. *)
Definition string_of (rt : runtime) (h : heap) (v : value) : option string :=
  match v with
  | VObj l | VFunc l => object_string rt h l
  | _ => to_string v
  end.

(** An element of [commandArgs.join(' ')]: [undefined] and [null] print as
    the empty string. *)
Definition join_item (rt : runtime) (h : heap) (v : value) : option string :=
  match v with
  | VUndefined | VNull => Some ""
  | _ => string_of rt h v
  end.

(** [vs.join(' ')], [None] when the conversion of an element throws. *)
Fixpoint join_space (rt : runtime) (h : heap) (vs : list value) : option string :=
  match vs with
  | [] => Some ""
  | v :: rest =>
      match rest with
      | [] => join_item rt h v
      | _ :: _ =>
          s ← join_item rt h v;
          r ← join_space rt h rest;
          Some (s +:+ " " +:+ r)
      end
  end.

(** The instance: [this.command], [this.version], [this.build]. *)
Record instance : Type := Instance {
  i_command : string;
  i_version : value;
  i_build : value
}.

(** [new Hab({ command })] *)
Definition new_hab (cmd : string) : instance :=
  Instance (if truthy (VStr cmd) then cmd else "hab") VNull VNull.

(** The scan and what follows it up to the debug line: the store after the
    deletions, and the request for [child_process] with the scan state. *)
Definition marshal (this : instance) (h : heap) (args : list value)
    : heap * (exn + (scan_state * request)) :=
  match scan args h initial_state with
  | (h', inl e) => (h', inl e)
  | (h', inr st) =>
      (h', inr (st, Request (i_command this) (prefix_command st)
                            (without_env (execOptions st)) (prepare_env h' st)))
  end.

(** The choice among the three strategies, once the debug line is there. *)
Definition dispatch (this : instance) (h : heap) (rq : request)
    (line : string) : launch :=
  if truthy (dict_get h "spawn" (rq_options rq)) then
    Spawn rq (truthy (dict_get h "passthrough" (rq_options rq)))
             (truthy (dict_get h "wait" (rq_options rq)))
  else if truthy (dict_get h "shell" (rq_options rq)) then
    ExecShell (i_command this +:+ " " +:+ line) rq
  else ExecFile rq.

(** [exec(...args)] up to the call of [child_process]: the store it leaves,
    and either what it threw or the debug line and the launch. *)
Definition exec (rt : runtime) (this : instance) (h : heap) (args : list value)
    : heap * (exn + (string * launch)) :=
  match marshal this h args with
  | (h', inl e) => (h', inl e)
  | (h', inr (st, rq)) =>
      match join_space rt h' (rq_args rq) with
      | None => (h', inl TypeError)
      | Some line => (h', inr (line, dispatch this h' rq line))
      end
  end.

(** *** What the returned promise settles to *)

Inductive rejection : Type :=
| RejectError (e : error)                         (* reject(error) *)
| RejectCode (code : exit_code)                   (* reject(code) *)
| RejectCapture (output : string) (code : exit_code).  (* reject({ output, code }) *)

Inductive promise : Type :=
| Pending
| Resolved (v : value)
| Rejected (r : rejection).

(** The callback [(error, stdout, stderr) => ...] of the shell and the direct
    strategies.  A [Buffer] has no [trim]: on success with the outputs
    delivered as [Buffer]s the callback throws at [stdout.trim()], and the
    promise is never settled. *)
Definition capture_callback (rt : runtime) (h : heap) (opts : dict)
    (r : proc_result) : promise :=
  match pr_error r with
  | Some e =>
      if truthy (dict_get h "nullOnError" opts) then Resolved VNull
      else Rejected (RejectError
                       (Error (err_message e)
                              (Some (delivered rt opts (pr_stderr r)))))
  | None =>
      match delivered rt opts (pr_stdout r) with
      | Text stdout => Resolved (VStr (trim stdout))
      | Buffer _ => Pending
      end
  end.

(** [code == 0] *)
Definition exit_ok (code : exit_code) : bool :=
  match code with
  | Some z => (z =? 0)%Z
  | None => false
  end.

(** The ['exit'] listener of the wait variant of spawn. *)
Definition wait_exit (code : exit_code) : promise :=
  if exit_ok code then Resolved VUndefined else Rejected (RejectCode code).

(** The promise [exec] returns, as far as it ever gets; [None] when [exec]
    returns the child process itself.  The promise of the wait variant has
    the ['exit'] listener only: without that event it stays pending. *)
Definition settle (rt : runtime) (h : heap) (l : launch) : option promise :=
  match l with
  | ExecFile rq | ExecShell _ rq =>
      Some (capture_callback rt h (rq_options rq) (capture_result rt l))
  | Spawn _ _ true =>
      Some (match exit_of rt l with
            | Some code => wait_exit code
            | None => Pending
            end)
  | Spawn _ _ false => None
  end.

(** *** The child process that the spawn strategy returns *)

(** One promise made by [captureOutput], with its variable [output]. *)
Record capture : Type := Capture {
  cap_output : string;
  cap_promise : promise
}.

(** The child with the closure of [captureOutput]: the captures established
    so far, the variable [capturePromise] (an index into them once set), and
    what has been done to the standard input. *)
Record child : Type := Child {
  ch_captures : list capture;
  ch_capturePromise : option nat;
  ch_stdin : list value;
  ch_stdin_ended : bool
}.

Definition spawned : child := Child [] None [] false.

(** What the process emits: ['data'] on its standard output, and ['exit']. *)
Inductive event : Type :=
| Data (chunk : string)
| Exit (code : exit_code).

(** [output += data] *)
Definition on_data (chunk : string) (c : capture) : capture :=
  Capture (cap_output c +:+ chunk) (cap_promise c).

(** [code == 0 ? resolve(output) : reject({ output, code })]; a settled
    promise stays as it is. *)
Definition on_exit (code : exit_code) (c : capture) : capture :=
  match cap_promise c with
  | Pending =>
      Capture (cap_output c)
              (if exit_ok code then Resolved (VStr (cap_output c))
               else Rejected (RejectCapture (cap_output c) code))
  | _ => c
  end.

Definition child_event (e : event) (c : child) : child :=
  match e with
  | Data chunk =>
      Child (on_data chunk <$> ch_captures c) (ch_capturePromise c)
            (ch_stdin c) (ch_stdin_ended c)
  | Exit code =>
      Child (on_exit code <$> ch_captures c) (ch_capturePromise c)
            (ch_stdin c) (ch_stdin_ended c)
  end.

Definition child_events (es : list event) (c : child) : child :=
  foldl (λ acc e, child_event e acc) c es.

(** [process.captureOutput(input)]: the child afterwards and the promise
    returned. *)
Definition captureOutput (input : value) (c : child) : child * nat :=
  let c1 :=
    match ch_capturePromise c with
    | Some _ => c
    | None =>
        Child (ch_captures c ++ [Capture "" Pending])
              (Some (length (ch_captures c))) (ch_stdin c) (ch_stdin_ended c)
    end in
  let c2 :=
    if truthy input
    then Child (ch_captures c1) (ch_capturePromise c1) (ch_stdin c1 ++ [input]) true
    else c1 in
  (c2, default 0 (ch_capturePromise c1)).

(** *** [getVersion] and [getSupervisorStatus] *)

(** [await this.exec(...)]: the value a promise resolved with, the child
    process when [exec] returned one, or an exception.  The two calls here
    run the binary with [execFile] and the options [exec] starts with, so
    that the promise is settled by the callback; for a promise left pending
    there would be nothing to go on with. *)
Inductive awaited : Type :=
| Got (v : value)
| GotChild
| Raised.

Definition await_exec (rt : runtime) (res : heap * (exn + (string * launch)))
    : awaited :=
  match res.2 with
  | inl _ => Raised
  | inr (_, l) =>
      match settle rt res.1 l with
      | None => GotChild
      | Some (Resolved v) => Got v
      | Some (Rejected _) => Raised
      | Some Pending => Raised
      end
  end.

(** The processes a call made [child_process] start. *)
Definition launched (res : heap * (exn + (string * launch))) : list launch :=
  match res.2 with
  | inl _ => []
  | inr (_, l) => [l]
  end.

(** The string a regular expression is run on. *)
Definition subject (rt : runtime) (h : heap) (a : awaited) : option string :=
  match a with
  | Got v => string_of rt h v
  | GotChild => Some "[object Object]"
  | Raised => None
  end.

(** [v === null] *)
Definition is_null (v : value) : bool :=
  match v with VNull => true | _ => false end.

(** The store for the literal [{ version: true }]. *)
Definition version_literal : heap := {[ 0 := [("version", VBool true)] ]}.

(** [getVersion()]: the instance afterwards, the value returned, and the
    processes started. *)
Definition getVersion (rt : runtime) (this : instance)
    : instance * value * list launch :=
  let '(this', started) :=
    if is_null (i_version this) then
      let res := exec rt this version_literal [VObj 0] in
      match subject rt res.1 (await_exec rt res) ≫= match_version with
      | Some (v, b) => (Instance (i_command this) (VStr v) (VStr b), launched res)
      | None => (Instance (i_command this) (VBool false) (i_build this), launched res)
      end
    else (this, []) in
  (this', if truthy (i_version this') then i_version this' else VNull, started).

(** The loop of [_.object(list, values)] of underscore, from index [i] on:
    [for (; i < list.length; i++) result[list[i]] = values[i];] *)
Fixpoint object_from (i : nat) (list values : list string) (result : dict) : dict :=
  match list with
  | [] => result
  | key :: rest =>
      object_from (S i) rest values
        (dict_set key (from_option VStr VUndefined (values !! i)) result)
  end.

(** [_.object(list, values)] *)
Definition underscore_object (list values : list string) : dict :=
  object_from 0 list values (Dict ∅ ProtoObject).

(** The loop [for (let line of output)] with its variables [columns] and
    [services]. *)
Fixpoint status_rows (columns : option (list string)) (output : list string)
    (services : list dict) : list dict :=
  match output with
  | [] => services
  | line :: rest =>
      let line := split_gaps line in
      match columns with
      | None => status_rows (Some line) rest services
      | Some cols => status_rows columns rest (services ++ [underscore_object cols line])
      end
  end.

(** The result of [getSupervisorStatus]: [false], or the array of services. *)
Inductive status : Type :=
| Unavailable
| Services (rows : list dict).

Definition getSupervisorStatus (rt : runtime) (this : instance)
    : status * list launch :=
  let res := exec rt this ∅ [VStr "svc"; VStr "status"] in
  (match await_exec rt res with
   | Got (VStr text) =>
       let output := split_newline text in
       if length output =? 1 then Services []
       else Services (status_rows None output [])
   | _ => Unavailable
   end, launched res).

End Hab.

(** ** The specification side

    Definitions that follow the words of the specification, to be compared
    with the code above. *)

Module Spec.
Import Js Text Hab.

(** An argument the scan accepts and goes past: a truthy string, number or
    object. *)
Definition scannable (v : value) : bool :=
  truthy v &&
  match typeof v with
  | TString | TNumber | TObject => true
  | _ => false
  end.

(** The arguments the scan reaches: those before the first falsy one. *)
Fixpoint scanned (args : list value) : list value :=
  match args with
  | [] => []
  | v :: rest => if truthy v then v :: scanned rest else []
  end.

(** The first string of a list of arguments, [undefined] without one. *)
Fixpoint first_string (args : list value) : value :=
  match args with
  | [] => VUndefined
  | VStr s :: _ => VStr s
  | _ :: rest => first_string rest
  end.

(** The directive keys that the object case deletes from the option map:
    all of them but [$options]. *)
Definition deleted_directives : list string :=
  ["$nullOnError"; "$spawn"; "$shell"; "$env"; "$preserveEnv";
   "$passthrough"; "$wait"].

(** An option map without the deleted directives. *)
Definition strip_directives (o : props) : props :=
  filter (λ kv, kv.1 ∉ deleted_directives) o.

(** A key as a flag: one dash for a key of length 1, two dashes otherwise. *)
Definition flag_name (key : string) : string :=
  if decide (String.length key = 1) then "-" +:+ key else "--" +:+ key.

(** The arguments for one key: the flag alone for [true], nothing for
    [false], the flag and then the value for anything else. *)
Definition flag_spec (key : string) (v : value) : list value :=
  match v with
  | VBool true => [VStr (flag_name key)]
  | VBool false => []
  | _ => [VStr (flag_name key); v]
  end.

(** The arguments for the keys of an option map, in the order of the keys. *)
Definition flags_spec (o : props) : list value :=
  keys o ≫= λ key, flag_spec key (get_prop key o).

(** The argument list for the scanned arguments, from the store as the
    caller passed it: the first string is left out (it is the command), every
    number and every later string is there in its string form, and an option
    map is there as the flags of its keys other than the deleted
    directives. *)
Fixpoint argv_spec (h : heap) (has_command : bool) (args : list value)
    : list value :=
  match args with
  | [] => []
  | VStr s :: rest =>
      if has_command then VStr s :: argv_spec h true rest
      else argv_spec h true rest
  | VNum n :: rest => VStr (number_to_string n) :: argv_spec h has_command rest
  | VObj l :: rest =>
      flags_spec (strip_directives (heap_get h l)) ++ argv_spec h has_command rest
  | _ :: rest => argv_spec h has_command rest
  end.

(** The request a launch carries. *)
Definition launch_request (la : launch) : request :=
  match la with
  | Spawn rq _ _ => rq
  | ExecShell _ rq => rq
  | ExecFile rq => rq
  end.

(** The locations of the objects among some arguments. *)
Definition objects_of (args : list value) : list loc :=
  args ≫= λ v, match v with VObj l => [l] | _ => [] end.

(** The header and the rows of a status table as records: each row pairs the
    columns of the header with its own fields. *)
Definition status_spec (text : string) : list dict :=
  match split_newline text with
  | [] => []
  | header :: rows =>
      (λ row, underscore_object (split_gaps header) (split_gaps row)) <$> rows
  end.

(** The language of the version pattern: [hab ], a version without slash, a
    slash, and a build of digits. *)
Definition version_line (s v b : string) : Prop :=
  s = "hab " +:+ v +:+ "/" +:+ b ∧
  v ≠ "" ∧ b ≠ "" ∧
  Forall (λ c, is_slash c = false) (String.list_ascii_of_string v) ∧
  Forall (λ c, is_digit c = true) (String.list_ascii_of_string b).

(** The argument vector of the launch a call ended with. *)
Definition argv_of (res : heap * (exn + (string * launch))) : option (list value) :=
  match res.2 with
  | inl _ => None
  | inr (_, la) => Some (rq_args (launch_request la))
  end.

(** The command in front of the argument vector, when there is one. *)
Definition command_prefix (cmd : value) : list value :=
  if truthy cmd then [cmd] else [].

(** The launch a call ended with, and the strategy of a launch. *)
Definition launch_of (res : heap * (exn + (string * launch))) : option launch :=
  match res.2 with
  | inl _ => None
  | inr (_, la) => Some la
  end.

Inductive strategy : Type :=
| SpawnStrategy
| ShellStrategy
| DirectStrategy.

Definition strategy_of (la : launch) : strategy :=
  match la with
  | Spawn _ _ _ => SpawnStrategy
  | ExecShell _ _ => ShellStrategy
  | ExecFile _ => DirectStrategy
  end.

(** An argument that leaves an option alone: anything but an option map
    with the directive of that option or with [$options]. *)
Definition no_override (directive_key : string) (h : heap) (v : value) : bool :=
  match v with
  | VObj l =>
      negb (has_key directive_key (heap_get h l)) &&
      negb (has_key "$options" (heap_get h l))
  | _ => true
  end.

(** A property of [execOptions] that the assignments of the directives of an
    option map keep. *)
Definition closed_under (P : dict → Prop) (o : props) : Prop :=
  (has_key "$nullOnError" o = true → ∀ v d, P d → P (dict_set "nullOnError" v d)) ∧
  (has_key "$spawn" o = true → ∀ v d, P d → P (dict_set "spawn" v d)) ∧
  (has_key "$shell" o = true → ∀ v d, P d → P (dict_set "shell" v d)) ∧
  (has_key "$preserveEnv" o = true → ∀ v d, P d → P (dict_set "preserveEnv" v d)) ∧
  (has_key "$options" o = true → ∀ k v d, P d → P (dict_set k v d)) ∧
  (has_key "$passthrough" o = true →
     ∀ d, P d → P (dict_set "passthrough" (VBool false) d) ∧
                P (dict_set "spawn" (VBool true)
                     (dict_set "passthrough" (VBool true) d))) ∧
  (has_key "$wait" o = true → ∀ b d, P d → P (dict_set "wait" (VBool b) d)).

(** The scan only deletes: every key an object has it had at the call. *)
Definition shrunk (h0 h : heap) : Prop :=
  ∀ l key, has_key key (heap_get h l) = true → has_key key (heap_get h0 l) = true.

(** The encodings of the examples: [utf8] and no other. *)
Definition utf8_only (v : value) : bool :=
  match v with VStr "utf8" => true | _ => false end.

(** A runtime for examples: objects print as [[object Object]], and every
    process ends with the given callback arguments and exit code 0. *)
Definition runtime_with (r : proc_result) : runtime :=
  Runtime (λ _ _, Some "[object Object]") (λ _, r) utf8_only (λ _, Some (Some 0%Z)).

Definition quiet : runtime := runtime_with (ProcResult None "" "").


Definition failing : runtime :=
  runtime_with (ProcResult (Some (Error "Command failed" None)) "" "boom").

(** The default instance, [new Hab()]. *)
Definition hab : instance := new_hab "".

(** The directives leave the command and the arguments collected so far. *)
Definition same_positional (st st' : scan_state) : Prop :=
  command st' = command st ∧ commandArgs st' = commandArgs st.


(** The deletions never bring a deleted key back: stripping an object of the
    store gives the same whatever the scan has done so far. *)
Definition same_stripped (h0 h : heap) : Prop :=
  ∀ l, strip_directives (heap_get h l) = strip_directives (heap_get h0 l).


(** [lines.join('\n')] *)
Fixpoint join_newline (lines : list string) : string :=
  match lines with
  | [] => ""
  | line :: rest =>
      match rest with
      | [] => line
      | _ :: _ => line +:+ String "010" (join_newline rest)
      end
  end.

(** No white space in front. *)
Definition starts_clean (l : list ascii) : Prop :=
  match l with
  | [] => True
  | c :: _ => is_space c = false
  end.

(** No white space at either end. *)
Definition trimmed (s : string) : Prop :=
  starts_clean (String.list_ascii_of_string s) ∧
  starts_clean (rev (String.list_ascii_of_string s)).

(** No line feed inside. *)
Definition no_newline (s : string) : Prop :=
  Forall (λ c, is_newline c = false) (String.list_ascii_of_string s).

(** No two white-space characters side by side. *)
Fixpoint no_gap (s : string) : bool :=
  match s with
  | EmptyString => true
  | String c rest => negb (is_space c && starts_with_space rest) && no_gap rest
  end.

(** White space only. *)
Definition all_space (l : list ascii) : Prop :=
  Forall (λ c, is_space c = true) l.


(** A separator of fields: two white-space characters or more. *)
Definition is_gap (g : string) : Prop :=
  2 ≤ String.length g ∧ all_space (String.list_ascii_of_string g).

(** No white space at the end. *)
Definition ends_clean (f : string) : Prop :=
  starts_clean (rev (String.list_ascii_of_string f)).

(** A line and its fields: the line is the fields with a separator between
    each two; a separator is a whole run of white space, for no white space
    touches it on either side; and no field holds two white-space characters
    side by side. *)
Inductive gap_split : string → list string → Prop :=
| gap_split_last f : no_gap f = true → gap_split f [f]
| gap_split_cons f g rest fields :
    no_gap f = true → ends_clean f → is_gap g →
    starts_with_space rest = false →
    gap_split rest fields →
    gap_split (f +:+ g +:+ rest) (f :: fields).

(** The separators as the specification words them, runs of two or more
    spaces: the same split with the space as the only separating
    character. *)
Definition is_blank (c : ascii) : bool :=
  match c with " "%char => true | _ => false end.

Definition starts_with_blank (s : string) : bool :=
  match s with
  | String c _ => is_blank c
  | EmptyString => false
  end.

Fixpoint split_spaces_from (in_gap : bool) (s : string) : list string :=
  match s with
  | EmptyString => [""]
  | String c rest =>
      if is_blank c then
        if in_gap then split_spaces_from true rest
        else if starts_with_blank rest then "" :: split_spaces_from true rest
        else cons_head c (split_spaces_from false rest)
      else cons_head c (split_spaces_from false rest)
  end.

Definition split_spaces (s : string) : list string := split_spaces_from false s.





(** ** Stores and runtimes of the examples *)

(** The store of the failing call: the caller's option map
    [{ $options: { cwd: '/tmp' } }]. *)
Definition options_only : heap :=
  {[ 0 := [("$options", VObj 1)]; 1 := [("cwd", VStr "/tmp")] ]}.

(** The store of the example:
    [{ $spawn: false, a: 3, long: true, no: false, n: true }]. *)
Definition flags_example : heap :=
  {[ 0 := [("$spawn", VBool false); ("a", VNum (NInt 3 I)); ("long", VBool true);
           ("no", VBool false); ("n", VBool true)] ]}.

(** The store of the example: the option map
    [{ $spawn: true, $options: {}, $wait: 1, force: true }] and a bystander. *)
Definition mixed_example : heap :=
  {[ 0 := [("$spawn", VBool true); ("$options", VObj 1); ("$wait", VNum (NInt 1 I));
           ("force", VBool true)];
     1 := [];
     2 := [("$spawn", VBool true)] ]}.





(** The stores of calls whose option map comes after an [undefined]:
    [{ a: true }] and [{ $spawn: true }]. *)
Definition flag_unreached : heap := {[ 0 := [("a", VBool true)] ]}.

Definition spawn_unreached : heap := {[ 0 := [("$spawn", VBool true)] ]}.

(** The store of a call with a bag of options:
    [{ $spawn: false, $options: { cwd: '/srv', spawn: true } }]. *)
Definition bag_example : heap :=
  {[ 0 := [("$spawn", VBool false); ("$options", VObj 1)];
     1 := [("cwd", VStr "/srv"); ("spawn", VBool true)] ]}.

(** The store of a call whose bag of options has an [env]:
    [{ $options: { cwd: '/srv', env: { HOME: '/root' } } }]. *)
Definition bag_env_example : heap :=
  {[ 0 := [("$options", VObj 1)];
     1 := [("cwd", VStr "/srv"); ("env", VObj 2)];
     2 := [("HOME", VStr "/root")] ]}.

(** The store of a call with an environment:
    [{ $env: { HAB_ORIGIN: 'acme' }, $preserveEnv: false }]. *)
Definition env_example : heap :=
  {[ 0 := [("$env", VObj 1); ("$preserveEnv", VBool false)];
     1 := [("HAB_ORIGIN", VStr "acme")] ]}.

(** The stores of calls with the shell strategy, [{ $shell: true }], and
    with a symbol as the value of a flag, [{ tag: Symbol() }]. *)
Definition shell_example : heap := {[ 0 := [("$shell", VBool true)] ]}.

Definition symbol_example : heap := {[ 0 := [("tag", VSymbol 0)] ]}.




(** The runtime of the scenario: the binary prints a header and one row. *)
Definition one_service : runtime :=
  runtime_with (ProcResult None "NAME  VERSION
core/foo  1.2.3
" "").

(** The runtime of the failing reading: the columns and the fields of the
    table are separated by two tabs. *)
Definition tab : string := String "009" "".

Definition tab_header : string := "NAME" +:+ tab +:+ tab +:+ "VERSION".

Definition tabbed : runtime :=
  runtime_with
    (ProcResult None
       (tab_header +:+ String "010" ("core/foo" +:+ tab +:+ tab +:+ "1.2.3")) "").

(** The runtime of the scenario: the binary prints its version. *)
Definition versioned : runtime :=
  runtime_with (ProcResult None "hab 1.6.1234/20230101000000
" "").

End Spec.

(** ** The rest of the class *)

Module Api.
Import Js Text Hab.

(** *** [satisfiesVersion] and [requireVersion]

    [semver.satisfies(version, range)] is code of the semver library: it is a
    parameter here. *)
Section versions.
Variable satisfies : value → string → bool.

(** [satisfiesVersion(range)]: the instance afterwards, the answer, and the
    processes started. *)
Definition satisfiesVersion (rt : runtime) (this : instance) (range : string)
    : instance * bool * list launch :=
  let '(this', version, started) := getVersion rt this in
  (this', satisfies version range, started).

(** The outcome of [requireVersion]: [this] for chaining, or the thrown
    error with its message. *)
Inductive required : Type :=
| Chained (this : instance)
| VersionError (message : string).

(** A value inside a template literal, for the strings and the other
    primitive values but symbols; [getVersion] gives a string or [null]. *)
Definition template (v : value) : string := default "" (to_string v).

(** [requireVersion(range)]: the outcome, the instance afterwards, and the
    processes started. *)
Definition requireVersion (rt : runtime) (this : instance) (range : string)
    : required * instance * list launch :=
  let '(this1, ok, started1) := satisfiesVersion rt this range in
  if negb ok then
    let '(this2, version, started2) := getVersion rt this1 in
    (VersionError ("Habitat version must be " +:+ range +:+
                   ", reported version is " +:+ template version),
     this2, started1 ++ started2)
  else (Chained this1, this1, started1).

End versions.

(** *** Pass-through of the output of a spawned child *)

Inductive log_entry : Type :=
| LogInfo (line : string)
| LogError (line : string).

(** [data => data.toString().trim().split(/\n/).forEach(line => logger.info(line))] *)
Definition passthrough_stdout (data : string) : list log_entry :=
  LogInfo <$> split_newline (trim data).

(** [data => data.toString().trim().split(/\n/).forEach(line => logger.error(line))] *)
Definition passthrough_stderr (data : string) : list log_entry :=
  LogError <$> split_newline (trim data).

(** *** The methods for the subcommands *)

Definition subcommands : list string :=
  ["bldr"; "cli"; "config"; "file"; "help"; "origin"; "pkg"; "plan"; "ring";
   "studio"; "sup"; "support-bundle"; "svc"; "user"].

(** The class [[a-zA-Z]]. *)
Definition is_letter (c : ascii) : bool :=
  let n := Ascii.nat_of_ascii c in
  ((65 <=? n) && (n <=? 90)) || ((97 <=? n) && (n <=? 122)).

(** [letter.toUpperCase()] for a letter of that class. *)
Definition upper_letter (c : ascii) : ascii :=
  let n := Ascii.nat_of_ascii c in
  if (97 <=? n) && (n <=? 122) then Ascii.ascii_of_nat (n - 32) else c.

(** The lower case of a code unit below 256: the letters A to Z, and the
    capital letters from 192 to 222 but the multiplication sign. *)
Definition lower_char (c : ascii) : ascii :=
  let n := Ascii.nat_of_ascii c in
  if ((65 <=? n) && (n <=? 90)) ||
     ((192 <=? n) && (n <=? 222) && negb (n =? 215))
  then Ascii.ascii_of_nat (n + 32) else c.

(** [s.toLowerCase()] *)
Fixpoint toLowerCase (s : string) : string :=
  match s with
  | EmptyString => EmptyString
  | String c rest => String (lower_char c) (toLowerCase rest)
  end.

Definition is_hyphen (c : ascii) : bool :=
  match c with "-"%char => true | _ => false end.

(** [command.replace(/-([a-zA-Z])/, (match, letter) => letter.toUpperCase())]:
    the first hyphen that a letter follows goes, and the letter is put in
    upper case. *)
Fixpoint method_name (command : string) : string :=
  match command with
  | EmptyString => EmptyString
  | String c rest =>
      if is_hyphen c then
        match rest with
        | String letter rest' =>
            if is_letter letter then String (upper_letter letter) rest'
            else String c (method_name rest)
        | EmptyString => String c EmptyString
        end
      else String c (method_name rest)
  end.

(** [command = method.toLowerCase()]: what the method puts in front of its
    arguments. *)
Definition method_command (command : string) : string :=
  toLowerCase (method_name command).

(** The methods that the loop puts on the prototype, with the subcommand
    each one passes. *)
Definition methods : list (string * string) :=
  (λ command, (method_name command, method_command command)) <$> subcommands.

(** [function (...args) { args.unshift(command); return this.exec.apply(this, args); }]
    for the method made from [name]. *)
Definition call_method (rt : runtime) (this : instance) (h : heap)
    (name : string) (args : list value) : heap * (exn + (string * launch)) :=
  exec rt this h (VStr (method_command name) :: args).

End Api.

(** ** More of the specification side *)

Module Spec2.
Import Js Text Hab Spec Api.


(** A positional argument: a string or a number. *)
Definition positional (v : value) : bool :=
  match typeof v with
  | TString | TNumber => true
  | _ => false
  end.

(** Arguments that are all strings. *)
Definition all_strings (vs : list value) : Prop :=
  Forall (λ v, ∃ s, v = VStr s) vs.



(** The text of the ['data'] events, in order. *)
Definition data_of (chunks : list string) : list event := Data <$> chunks.

Definition concat_chunks (chunks : list string) : string :=
  foldr String.append "" chunks.

(** What the events do to one capture. *)
Definition capture_event (e : event) (cap : capture) : capture :=
  match e with
  | Data chunk => on_data chunk cap
  | Exit code => on_exit code cap
  end.

Definition capture_events (es : list event) (cap : capture) : capture :=
  foldl (λ acc e, capture_event e acc) cap es.

(** A hyphen that a letter follows occurs in the name. *)
Fixpoint has_hyphen_letter (s : string) : bool :=
  match s with
  | EmptyString => false
  | String c rest =>
      (is_hyphen c &&
       match rest with String letter _ => is_letter letter | EmptyString => false end)
      || has_hyphen_letter rest
  end.

(** A name that [toLowerCase] leaves as it is. *)
Fixpoint is_lower (s : string) : bool :=
  match s with
  | EmptyString => true
  | String c rest => bool_decide (lower_char c = c) && is_lower rest
  end.

(** An argument that is not an option map with the given key. *)
Definition lacks (key : string) (h : heap) (v : value) : bool :=
  match v with
  | VObj l => negb (has_key key (heap_get h l))
  | _ => true
  end.

(** The options that the directives other than [$options] assign. *)
Definition directive_options : list string :=
  ["nullOnError"; "spawn"; "shell"; "preserveEnv"; "passthrough"; "wait"].

(** The states of the version that the class itself stores: none yet, the
    mark [false] of an unavailable version, or a string. *)
Definition stored_version (this : instance) : Prop :=
  i_version this = VNull ∨ i_version this = VBool false ∨
  ∃ v, i_version this = VStr v.

(** The message of the error that [requireVersion] throws. *)
Definition version_message (range : string) (version : value) : string :=
  "Habitat version must be " +:+ range +:+ ", reported version is " +:+
  template version.

(** The version library of the examples answers from a table: only the
    version [1.6.1234] satisfies the range [>=1.6.0]. *)
Definition satisfies_example (version : value) (range : string) : bool :=
  match version with
  | VStr v => bool_decide (v = "1.6.1234" ∧ range = ">=1.6.0")
  | _ => false
  end.

End Spec2.

(** * Properties *)

Import Js Text Hab Spec.

(** ** Objects *)

Section objects.
Implicit Types (o : list (string * value)) (key k : string).

Lemma has_key_true key o : has_key key o = true ↔ key ∈ o.*1.
Proof. unfold has_key. by rewrite bool_decide_eq_true. Qed.

Lemma has_key_false key o : has_key key o = false ↔ key ∉ o.*1.
Proof. unfold has_key. by rewrite bool_decide_eq_false. Qed.

Lemma delete_prop_absent key o : key ∉ o.*1 → delete_prop key o = o.
Proof.
  unfold delete_prop. induction o as [|[k v] o IH]; [done|].
  rewrite fmap_cons, not_elem_of_cons. intros [Hk Ho]. cbn in Hk.
  rewrite filter_cons_True by (cbn; congruence). by rewrite IH.
Qed.

Lemma delete_prop_keys key k o :
  k ∈ (delete_prop key o).*1 ↔ k ≠ key ∧ k ∈ o.*1.
Proof.
  unfold delete_prop. rewrite !list_elem_of_fmap. split.
  - intros ([k' v] & -> & [Hne Hin]%list_elem_of_filter). cbn in *.
    split; [done|]. by exists (k', v).
  - intros (Hne & [k' v] & -> & Hin). exists (k', v). split; [done|].
    apply list_elem_of_filter. done.
Qed.

Lemma has_key_delete_prop key k o :
  has_key k (delete_prop key o) = bool_decide (k ≠ key) && has_key k o.
Proof.
  unfold has_key. apply eq_true_iff_eq.
  rewrite andb_true_iff, !bool_decide_eq_true. apply delete_prop_keys.
Qed.

Lemma get_prop_filter (P : string → Prop) `{!∀ kv : string * value, Decision (P kv.1)} k o :
  P k → get_prop k (filter (λ kv, P kv.1) o) = get_prop k o.
Proof.
  intros HP. induction o as [|[k' v] o IH]; [done|].
  destruct (decide (P (k', v).1)) as [Hk|Hk].
  - rewrite filter_cons_True by done. cbn. by rewrite IH.
  - rewrite filter_cons_False by done. cbn. rewrite IH.
    destruct (decide (k' = k)); [cbn in Hk; congruence | done].
Qed.

Lemma get_prop_delete_prop key k o :
  k ≠ key → get_prop k (delete_prop key o) = get_prop k o.
Proof. intros. unfold delete_prop. by apply (get_prop_filter (λ k, k ≠ key)). Qed.

Lemma get_prop_strip k o :
  k ∉ deleted_directives → get_prop k (strip_directives o) = get_prop k o.
Proof.
  intros. unfold strip_directives.
  by apply (get_prop_filter (λ k, k ∉ deleted_directives)).
Qed.

End objects.

(** ** The deletions of the object case *)

Section stripping.
Implicit Types (o : list (string * value)) (h : gmap nat (list (string * value))).

Lemma strip_directives_deletes o :
  strip_directives o =
  delete_prop "$wait" (delete_prop "$passthrough" (delete_prop "$preserveEnv"
    (delete_prop "$env" (delete_prop "$shell" (delete_prop "$spawn"
      (delete_prop "$nullOnError" o)))))).
Proof.
  unfold strip_directives, delete_prop, deleted_directives.
  rewrite !list_filter_filter. apply list_filter_iff. intros [k v]. cbn.
  rewrite !not_elem_of_cons. pose proof (not_elem_of_nil k). tauto.
Qed.

Lemma strip_directives_idemp o :
  strip_directives (strip_directives o) = strip_directives o.
Proof.
  unfold strip_directives. rewrite list_filter_filter.
  apply list_filter_iff. tauto.
Qed.

Lemma strip_directives_keys k o :
  k ∈ (strip_directives o).*1 ↔ (k ∉ deleted_directives) ∧ k ∈ o.*1.
Proof.
  unfold strip_directives. rewrite !list_elem_of_fmap. split.
  - intros ([k' v] & -> & [Hne Hin]%list_elem_of_filter). cbn in *.
    split; [done|]. by exists (k', v).
  - intros (Hne & [k' v] & -> & Hin). exists (k', v). split; [done|].
    by apply list_elem_of_filter.
Qed.

Lemma heap_get_insert h l l' o :
  heap_get (<[l := o]> h) l' = if decide (l' = l) then o else heap_get h l'.
Proof.
  unfold heap_get. rewrite lookup_insert.
  destruct (decide (l = l')), (decide (l' = l)); by simplify_eq/=.
Qed.

End stripping.

(** ** One directive block *)

Section directive.
Context (key : string) (body : value → gmap nat (list (string * value)) → scan_state → scan_state).
Context (l : nat).
Implicit Types (hs : gmap nat (list (string * value)) * scan_state).

Lemma directive_state deletes hs :
  (directive key body deletes l hs).2 =
  if has_key key (heap_get hs.1 l)
  then body (get_prop key (heap_get hs.1 l)) hs.1 hs.2 else hs.2.
Proof. destruct hs as [h st]. unfold directive. by destruct (has_key _ _). Qed.

Lemma directive_heap_deleted hs l' :
  heap_get (directive key body true l hs).1 l' =
  if decide (l' = l) then delete_prop key (heap_get hs.1 l) else heap_get hs.1 l'.
Proof.
  destruct hs as [h st]. unfold directive. cbn [fst].
  destruct (has_key key (heap_get h l)) eqn:Hk; cbn [fst].
  - apply heap_get_insert.
  - apply has_key_false in Hk. rewrite (delete_prop_absent _ _ Hk).
    destruct (decide (l' = l)); by subst.
Qed.

Lemma directive_heap_kept hs : (directive key body false l hs).1 = hs.1.
Proof. destruct hs as [h st]. unfold directive. by destruct (has_key _ _). Qed.

(** A property of the scan state that the body keeps is kept by the block. *)
Lemma directive_keeps (P : scan_state → Prop) deletes hs :
  (∀ v h st, P st → P (body v h st)) →
  P hs.2 → P (directive key body deletes l hs).2.
Proof.
  intros Hbody HP. rewrite directive_state. destruct (has_key _ _); auto.
Qed.

End directive.

(** ** The positional part of the state is out of reach of the directives *)

Lemma same_positional_foldl {A} (f : scan_state → A → scan_state) (xs : list A) st :
  (∀ acc x, same_positional acc (f acc x)) → same_positional st (foldl f st xs).
Proof.
  intros Hf. revert st. induction xs as [|x xs IH]; intros st; [done|].
  cbn. destruct (IH (f st x)) as [H1 H2], (Hf st x) as [H3 H4].
  split; congruence.
Qed.

Lemma take_nullOnError_positional v h st : same_positional st (take_nullOnError v h st).
Proof. done. Qed.
Lemma take_spawn_positional v h st : same_positional st (take_spawn v h st).
Proof. done. Qed.
Lemma take_shell_positional v h st : same_positional st (take_shell v h st).
Proof. done. Qed.
Lemma take_env_positional v h st : same_positional st (take_env v h st).
Proof. apply same_positional_foldl. done. Qed.
Lemma take_preserveEnv_positional v h st : same_positional st (take_preserveEnv v h st).
Proof. done. Qed.
Lemma take_options_positional v h st : same_positional st (take_options v h st).
Proof. apply same_positional_foldl. done. Qed.
Lemma take_passthrough_positional v h st : same_positional st (take_passthrough v h st).
Proof. unfold take_passthrough. by destruct (truthy v). Qed.
Lemma take_wait_positional v h st : same_positional st (take_wait v h st).
Proof. done. Qed.

Create HintDb positional.
#[local] Hint Resolve take_nullOnError_positional take_spawn_positional
  take_shell_positional take_env_positional take_preserveEnv_positional
  take_options_positional take_passthrough_positional take_wait_positional
  : positional.

Lemma directive_positional key body deletes l hs st0 :
  (∀ v h st, same_positional st (body v h st)) →
  same_positional st0 hs.2 →
  same_positional st0 (directive key body deletes l hs).2.
Proof.
  intros Hbody. apply directive_keeps. intros v h st [H1 H2].
  destruct (Hbody v h st) as [H3 H4]. split; congruence.
Qed.

(** ** The flags of an option map *)

Lemma push_flag_spec key v args : push_flag key v args = args ++ flag_spec key v.
Proof.
  unfold push_flag, flag_spec, flag_name.
  destruct (String.length key =? 1) eqn:Hlen.
  - apply Nat.eqb_eq in Hlen. rewrite decide_True by done.
    destruct v as [| |[|]| | | | | |]; cbn; by rewrite ?app_nil_r.
  - apply Nat.eqb_neq in Hlen. rewrite decide_False by done.
    destruct v as [| |[|]| | | | | |]; cbn; by rewrite ?app_nil_r.
Qed.

Lemma push_flags_spec o args : push_flags o args = args ++ flags_spec o.
Proof.
  unfold push_flags, flags_spec. generalize (keys o) as ks. intros ks.
  revert args. induction ks as [|k ks IH]; intros args; cbn.
  - by rewrite app_nil_r.
  - rewrite IH, push_flag_spec. by rewrite <- app_assoc.
Qed.

(** ** The object case as a whole *)

Lemma scan_object_heap l h st l' :
  heap_get (scan_object l h st).1 l' =
  if decide (l' = l) then strip_directives (heap_get h l) else heap_get h l'.
Proof.
  unfold scan_object. cbn [fst].
  rewrite strip_directives_deletes.
  repeat first [ rewrite directive_heap_deleted | rewrite directive_heap_kept ].
  cbn [fst]. destruct (decide (l' = l)); [|done].
  by repeat (rewrite decide_True by done).
Qed.

Lemma scan_object_positional l h st :
  command (scan_object l h st).2 = command st ∧
  commandArgs (scan_object l h st).2 =
    commandArgs st ++ flags_spec (strip_directives (heap_get h l)).
Proof.
  pose proof (scan_object_heap l h st l) as Hh.
  rewrite decide_True in Hh by done.
  unfold scan_object in *. cbn [fst snd] in *.
  rewrite Hh, push_flags_spec.
  match goal with |- context [commandArgs (directive ?k ?b ?d ?l ?hs).2] =>
    assert (same_positional st (directive k b d l hs).2) as [Hc Ha]
  end.
  { repeat (apply directive_positional; [auto with positional|]). done. }
  unfold with_args. cbn [command commandArgs]. by rewrite Hc, Ha.
Qed.

(** ** The scan *)

Section scan.
Implicit Types (h : gmap nat (list (string * value))) (st : scan_state).
Implicit Types (args pre post : list value) (v : value).

Lemma scan_cons_object l args h st :
  scan (VObj l :: args) h st =
  scan args (scan_object l h st).1 (scan_object l h st).2.
Proof. cbn. by destruct (scan_object l h st). Qed.

Lemma scan_cons_falsy v args h st :
  truthy v = false → scan (v :: args) h st = (h, inr st).
Proof. intros Hv. cbn. by rewrite Hv. Qed.

Lemma scan_cons_number n args h st :
  truthy (VNum n) = true →
  scan (VNum n :: args) h st =
  scan args h (push_args [VStr (number_to_string n)] st).
Proof.
  intros Hv.
  change (scan (VNum n :: args) h st) with
    (if truthy (VNum n)
     then scan args h (push_args [VStr (number_to_string n)] st)
     else (h, inr st)).
  by rewrite Hv.
Qed.

Lemma scan_cons_string s args h st :
  truthy (VStr s) = true →
  scan (VStr s :: args) h st =
  if truthy (command st) then scan args h (push_args [VStr s] st)
  else scan args h (with_command (VStr s) st).
Proof.
  intros Hv.
  change (scan (VStr s :: args) h st) with
    (if truthy (VStr s)
     then (if negb (truthy (command st))
           then scan args h (with_command (VStr s) st)
           else scan args h (push_args [VStr s] st))
     else (h, inr st)).
  rewrite Hv. by destruct (truthy (command st)).
Qed.

(** The three shapes of an argument the scan goes past. *)
Lemma scannable_cases v :
  scannable v = true →
  (∃ s, v = VStr s ∧ truthy v = true) ∨ (∃ n, v = VNum n ∧ truthy v = true) ∨
  (∃ l, v = VObj l).
Proof.
  unfold scannable. intros [Ht Hty]%andb_true_iff.
  destruct v; try discriminate; eauto.
Qed.

(** A truthy argument of another type ends the scan with the exception. *)
Lemma scan_cons_unsupported v args h st :
  truthy v = true → scannable v = false →
  scan (v :: args) h st = (h, inl UnhandledExecArgument).
Proof.
  unfold scannable. intros Hv Hs. rewrite Hv in Hs.
  destruct v; try discriminate; cbn in *; by rewrite ?Hv.
Qed.

Lemma same_stripped_scan_object h0 h l st :
  same_stripped h0 h → same_stripped h0 (scan_object l h st).1.
Proof.
  intros Hs l'. rewrite scan_object_heap. destruct (decide (l' = l)) as [->|].
  - by rewrite strip_directives_idemp.
  - apply Hs.
Qed.

(** What a scan that ends without exception leaves in [command] and
    [commandArgs]; [command] is [undefined] until it is a truthy string. *)
Lemma scan_spec h0 args : ∀ h st h' st',
  same_stripped h0 h →
  truthy (command st) = true ∨ command st = VUndefined →
  scan args h st = (h', inr st') →
  command st' =
    (if truthy (command st) then command st else first_string (scanned args)) ∧
  commandArgs st' =
    commandArgs st ++ argv_spec h0 (truthy (command st)) (scanned args).
Proof.
  induction args as [|v args IH]; intros h st h' st' Hs Hcmd0 Hscan.
  { cbn in *. simplify_eq. rewrite app_nil_r.
    destruct Hcmd0 as [->| ->]; done. }
  destruct (truthy v) eqn:Hv; cycle 1.
  { rewrite scan_cons_falsy in Hscan by done. cbn. rewrite Hv. cbn.
    simplify_eq. rewrite app_nil_r. destruct Hcmd0 as [->| ->]; done. }
  cbn [scanned]. rewrite Hv.
  destruct (scannable v) eqn:Hsc;
    [|by rewrite scan_cons_unsupported in Hscan].
  destruct (scannable_cases v Hsc) as [(s & -> & _)|[(n & -> & _)|(l & ->)]].
  - (* a string *)
    rewrite scan_cons_string in Hscan by done.
    destruct (truthy (command st)) eqn:Hcmd.
    + apply (IH _ _ _ _ Hs) in Hscan as [Hc Ha]; [|by left]. unfold with_command, push_args in Hc, Ha; cbn [command commandArgs] in Hc, Ha.
      rewrite Hcmd in Hc, Ha. cbn [argv_spec]. by rewrite Ha, <- app_assoc.
    + apply (IH _ _ _ _ Hs) in Hscan as [Hc Ha]; [|by left]. unfold with_command, push_args in Hc, Ha; cbn [command commandArgs] in Hc, Ha.
      rewrite Hv in Hc, Ha. by cbn [argv_spec first_string].
  - (* a number *)
    rewrite scan_cons_number in Hscan by done.
    apply (IH _ _ _ _ Hs) in Hscan as [Hc Ha]; [|done]. unfold with_command, push_args in Hc, Ha; cbn [command commandArgs] in Hc, Ha. cbn [argv_spec first_string].
    rewrite Ha, <- app_assoc. split; [|done].
    rewrite Hc. by destruct (truthy (command st)).
  - (* an option map *)
    rewrite scan_cons_object in Hscan.
    pose proof (scan_object_positional l h st) as [Hc1 Ha1].
    pose proof (same_stripped_scan_object h0 h l st Hs) as Hs1.
    apply (IH _ _ _ _ Hs1) in Hscan as [Hc Ha]; [|by rewrite Hc1].
    rewrite Hc1 in Hc, Ha. rewrite Ha1, (Hs l) in Ha. cbn [argv_spec first_string].
    rewrite Ha, <- app_assoc. split; [|done].
    rewrite Hc. by destruct (truthy (command st)).
Qed.

(** The store after the scan, location by location: an object is as it was
    or stripped of the deleted directives, and an object that is not among
    the arguments is as it was. *)
Lemma scan_heap_cases args : ∀ h st l,
  heap_get (scan args h st).1 l = heap_get h l ∨
  heap_get (scan args h st).1 l = strip_directives (heap_get h l).
Proof.
  induction args as [|v args IH]; intros h st l; [by left|].
  destruct (truthy v) eqn:Hv; [|rewrite scan_cons_falsy by done; by left].
  destruct (scannable v) eqn:Hsc;
    [|rewrite scan_cons_unsupported by done; by left].
  destruct (scannable_cases v Hsc) as [(s & -> & _)|[(n & -> & _)|(l0 & ->)]].
  - rewrite scan_cons_string by done. destruct (truthy (command st)); apply IH.
  - rewrite scan_cons_number by done. apply IH.
  - rewrite scan_cons_object.
    destruct (IH (scan_object l0 h st).1 (scan_object l0 h st).2 l) as [->| ->];
      rewrite scan_object_heap; destruct (decide (l = l0)) as [->|]; auto.
    rewrite strip_directives_idemp. auto.
Qed.

Lemma scan_heap_frame args : ∀ h st l,
  l ∉ objects_of args → heap_get (scan args h st).1 l = heap_get h l.
Proof.
  induction args as [|v args IH]; intros h st l Hl; [done|].
  unfold objects_of in Hl. rewrite bind_cons, not_elem_of_app in Hl.
  destruct Hl as [Hv Hl].
  destruct (truthy v) eqn:Ht; [|by rewrite scan_cons_falsy].
  destruct (scannable v) eqn:Hsc; [|by rewrite scan_cons_unsupported].
  destruct (scannable_cases v Hsc) as [(s & -> & _)|[(n & -> & _)|(l0 & ->)]].
  - rewrite scan_cons_string by done. destruct (truthy (command st)); by apply IH.
  - rewrite scan_cons_number by done. by apply IH.
  - rewrite scan_cons_object, IH by done. rewrite scan_object_heap.
    rewrite decide_False; [done|]. set_solver.
Qed.

(** The scan of a list that starts with scannable arguments goes through
    them and continues with the rest. *)
Lemma scan_app pre : ∀ post h st,
  Forall (λ v, scannable v = true) pre →
  ∃ h1 st1, scan pre h st = (h1, inr st1) ∧
            scan (pre ++ post) h st = scan post h1 st1.
Proof.
  induction pre as [|v pre IH]; intros post h st Hpre; [by eauto|].
  apply Forall_cons in Hpre as [Hv Hpre]. rewrite <- app_comm_cons.
  destruct (scannable_cases v Hv) as [(s & -> & Ht)|[(n & -> & Ht)|(l & ->)]].
  - rewrite !scan_cons_string by done. destruct (truthy (command st)); by apply IH.
  - rewrite !scan_cons_number by done. by apply IH.
  - rewrite !scan_cons_object. by apply IH.
Qed.

End scan.

(** ** From the scan to the launch *)

Section exec.
Implicit Types (h : gmap nat (list (string * value))) (st : scan_state).
Implicit Types (args pre post : list value) (v : value).

(** The assignment of [env] leaves the other options as they are. *)
Lemma dict_get_without_env h key d :
  key ≠ "env" → dict_get h key (without_env d) = dict_get h key d.
Proof.
  intros Hne. unfold dict_get, without_env. cbn [d_own d_proto].
  by rewrite lookup_delete_ne.
Qed.


Lemma marshal_inv this h args h' st rq :
  marshal this h args = (h', inr (st, rq)) →
  scan args h initial_state = (h', inr st) ∧
  rq = Request (i_command this) (prefix_command st) (without_env (execOptions st))
               (prepare_env h' st).
Proof.
  unfold marshal. destruct (scan args h initial_state) as [h1 [e|st1]];
    intros; by simplify_eq.
Qed.

Lemma marshal_heap this h args :
  (marshal this h args).1 = (scan args h initial_state).1.
Proof. unfold marshal. by destruct (scan _ _ _) as [h1 [e|st1]]. Qed.

Lemma launch_request_dispatch this h rq line :
  launch_request (dispatch this h rq line) = rq.
Proof. unfold dispatch. by repeat destruct (truthy _). Qed.

Lemma exec_inv rt this h args h' line la :
  exec rt this h args = (h', inr (line, la)) →
  ∃ st rq, marshal this h args = (h', inr (st, rq)) ∧
           join_space rt h' (rq_args rq) = Some line ∧
           la = dispatch this h' rq line.
Proof.
  unfold exec. destruct (marshal this h args) as [h1 [e|[st rq]]]; [done|].
  destruct (join_space rt h1 (rq_args rq)) as [line'|] eqn:Hj; [|done].
  intros. simplify_eq. eauto.
Qed.

Lemma exec_heap rt this h args :
  (exec rt this h args).1 = (scan args h initial_state).1.
Proof.
  rewrite <- (marshal_heap this). unfold exec.
  destruct (marshal this h args) as [h1 [e|[st rq]]]; [done|].
  by destruct (join_space _ _ _).
Qed.

Lemma exec_thrown_by_scan rt this h args h' e :
  scan args h initial_state = (h', inl e) →
  exec rt this h args = (h', inl e).
Proof. intros Hs. unfold exec, marshal. by rewrite Hs. Qed.

(** The argument vector of a launch, from the arguments and the store of
    the call. *)
Lemma exec_argv rt this h args h' line la :
  exec rt this h args = (h', inr (line, la)) →
  rq_args (launch_request la) =
    command_prefix (first_string (scanned args)) ++
    argv_spec h false (scanned args).
Proof.
  intros (st & rq & Hm & _ & ->)%exec_inv.
  rewrite launch_request_dispatch.
  apply marshal_inv in Hm as [Hscan ->]. cbn [rq_args].
  apply (scan_spec h) in Hscan as [Hc Ha]; [|done|by right].
  cbn in Hc, Ha. unfold prefix_command, command_prefix.
  rewrite Hc, Ha. by destruct (truthy _).
Qed.

Lemma scanned_app pre post :
  Forall (λ v, scannable v = true) pre →
  scanned (pre ++ post) = pre ++ scanned post.
Proof.
  induction 1 as [|v pre Hv _ IH]; [done|].
  cbn. apply andb_true_iff in Hv as [-> _]. by rewrite IH.
Qed.

Lemma argv_spec_app h pre : ∀ b post,
  ∃ b', argv_spec h b (pre ++ post) = argv_spec h b pre ++ argv_spec h b' post.
Proof.
  induction pre as [|v pre IH]; intros b post; [by exists b|].
  destruct v as [| |c|n|s|z|i|l|l]; cbn [app argv_spec]; try apply IH.
  - destruct (IH b post) as [b' ->]. by exists b'.
  - destruct b; [destruct (IH true post) as [b' ->]; by exists b' | apply IH].
  - destruct (IH b post) as [b' ->]. exists b'. by rewrite <- app_assoc.
Qed.

End exec.

(** ** The argument vector *)

(** C1 (amended). Among the arguments the scan reaches (those before the
    first falsy one), the first string becomes the subcommand name and a
    number never does; every number and every string after the first is
    appended, in encounter order, as its string form, between the flags of
    the option maps; and the command, when there is one, is the first element
    of the argument vector of every launch.  In particular a call whose
    first argument is a non-empty string has it as its command and as the
    head of the argument vector. *)
Theorem C1_first_string_is_the_command this h args h' st rq :
  marshal this h args = (h', inr (st, rq)) →
  command st = first_string (scanned args) ∧
  commandArgs st = argv_spec h false (scanned args) ∧
  rq_args rq = command_prefix (command st) ++ commandArgs st ∧
  (∀ s rest, args = VStr s :: rest → s ≠ "" →
     command st = VStr s ∧ head (rq_args rq) = Some (VStr s)) ∧
  (∀ rt h'' line la,
     exec rt this h args = (h'', inr (line, la)) → launch_request la = rq).
Proof.
  intros Hm. pose proof Hm as [Hscan Hrq]%marshal_inv.
  apply (scan_spec h) in Hscan as [Hc Ha]; [|done|by right].
  cbn in Hc, Ha. split_and!; [done|done| | |].
  - rewrite Hrq. cbn [rq_args]. unfold prefix_command, command_prefix.
    by destruct (truthy _).
  - intros s rest -> Hs.
    assert (truthy (VStr s) = true) as Ht.
    { cbn. apply negb_true_iff, String.eqb_neq. done. }
    cbn [scanned] in Hc. rewrite Ht in Hc. cbn in Hc. split; [done|].
    rewrite Hrq. cbn [rq_args]. unfold prefix_command. rewrite Hc, Ht. done.
  - intros rt h'' line la (st2 & rq2 & Hm2 & _ & ->)%exec_inv.
    rewrite launch_request_dispatch. congruence.
Qed.

Lemma C1_first_string_is_the_command_witness :
  ∃ h' st rq,
    marshal hab ∅ [VNum (NInt 8 I); VStr "pkg"; VStr "install"] = (h', inr (st, rq)) ∧
    command st = VStr "pkg" ∧
    rq_args rq = [VStr "pkg"; VStr "8"; VStr "install"].
Proof.
  eexists _, _, _. split; [reflexivity|].
  edestruct (C1_first_string_is_the_command hab ∅
               [VNum (NInt 8 I); VStr "pkg"; VStr "install"])
    as (Hc & Ha & Hrq & _); [reflexivity|].
  split; [exact Hc|]. etrans; [exact Hrq|]. vm_compute. reflexivity.
Defined.

(** C1 as stated fails: a number that comes first is not the command, and a
    zero ends the scan, so that what follows it is not appended. *)
Lemma C1_number_first_counterexample :
  argv_of (exec quiet hab ∅ [VNum (NInt 5 I); VStr "foo"])
    = Some [VStr "foo"; VStr "5"] ∧
  argv_of (exec quiet hab ∅ [VStr "a"; VNum (NInt 0 I); VStr "b"])
    = Some [VStr "a"].
Proof. split; vm_compute; reflexivity. Qed.

(** C2 (code defect). The key [$options] is read but not deleted, so the loop
    over the remaining keys turns it into the flag [--$options] followed by
    its object. *)
Theorem C2_options_directive_becomes_a_flag :
  argv_of (exec quiet hab options_only [VObj 0])
    = Some [VStr "--$options"; VObj 1] ∧
  has_key "$options" (heap_get (exec quiet hab options_only [VObj 0]).1 0) = true.
Proof. split; vm_compute; reflexivity. Qed.

(** C3 (amended). An option map that the scan reaches (every argument before
    it is a truthy string, number or object) contributes to the argument
    vector of the launch, for each of its keys other than the deleted
    directives and in the order of the keys, the key with one dash when its
    length is 1 and with two dashes otherwise: alone for the value [true],
    not at all for [false], and followed by the value as the next argument
    for any other value. *)
Theorem C3_keys_become_flags rt this h pre l post h' line la :
  Forall (λ v, scannable v = true) pre →
  exec rt this h (pre ++ VObj l :: post) = (h', inr (line, la)) →
  ∃ before after,
    rq_args (launch_request la) =
      before ++ flags_spec (strip_directives (heap_get h l)) ++ after ∧
    before = command_prefix (first_string (scanned (pre ++ VObj l :: post))) ++
             argv_spec h false pre.
Proof.
  intros Hpre Hexec. rewrite (exec_argv _ _ _ _ _ _ _ Hexec).
  rewrite (scanned_app _ _ Hpre).
  destruct (argv_spec_app h pre false (scanned (VObj l :: post))) as [b' ->].
  cbn [scanned truthy argv_spec].
  eexists _, (argv_spec h b' (scanned post)). split; [|reflexivity].
  by rewrite <- !app_assoc.
Qed.

Lemma C3_keys_become_flags_witness :
  Forall (λ v, scannable v = true) [VStr "pkg"] ∧
  ∃ before after,
    argv_of (exec quiet hab flags_example ([VStr "pkg"] ++ VObj 0 :: [VStr "x"]))
      = Some (before ++ [VStr "-a"; VNum (NInt 3 I); VStr "--long"; VStr "-n"] ++ after).
Proof.
  split; [repeat constructor|].
  destruct (exec quiet hab flags_example ([VStr "pkg"] ++ VObj 0 :: [VStr "x"]))
    as [h' [e|[line la]]] eqn:Hexec.
  - vm_compute in Hexec. discriminate.
  - destruct (C3_keys_become_flags quiet hab flags_example [VStr "pkg"] 0
                [VStr "x"] h' line la) as (before & after & Hargs & _);
      [repeat constructor|exact Hexec|].
    exists before, after. unfold argv_of. cbn [snd]. by rewrite Hargs.
Defined.

(** C3 as stated fails for an option map behind a falsy argument: the scan
    ends before it, and its keys become no flags. *)
Lemma C3_unreached_map_counterexample :
  has_key "a" (heap_get flag_unreached 0) = true ∧
  argv_of (exec quiet hab flag_unreached [VStr "pkg"; VUndefined; VObj 0])
    = Some [VStr "pkg"].
Proof. split; vm_compute; reflexivity. Qed.

(** ** Unsupported arguments *)

(** C5 (amended). When the scan reaches a truthy argument that is not a
    string, a number or an object ([true], a function, a symbol, a non-zero
    bigint), [exec] throws ['unhandled exec argument'] and launches nothing.
    A falsy argument of such a type is not covered: it ends the scan. *)
Theorem C5_unsupported_argument_throws rt this h pre v post :
  Forall (λ v, scannable v = true) pre →
  truthy v = true →
  typeof v ≠ TString → typeof v ≠ TNumber → typeof v ≠ TObject →
  ∃ h', exec rt this h (pre ++ v :: post) = (h', inl UnhandledExecArgument).
Proof.
  intros Hpre Hv Hs Hn Ho.
  destruct (scan_app pre (v :: post) h initial_state Hpre)
    as (h1 & st1 & _ & Hscan).
  exists h1. apply exec_thrown_by_scan. rewrite Hscan.
  apply scan_cons_unsupported; [done|].
  unfold scannable. rewrite Hv. by destruct (typeof v).
Qed.

Lemma C5_unsupported_argument_throws_witness :
  Forall (λ v, scannable v = true) [VStr "pkg"] ∧
  truthy (VBool true) = true ∧
  ∃ h', exec quiet hab ∅ ([VStr "pkg"] ++ VBool true :: [VStr "x"])
          = (h', inl UnhandledExecArgument).
Proof.
  split; [repeat constructor|]. split; [reflexivity|].
  apply (C5_unsupported_argument_throws quiet hab ∅ [VStr "pkg"] (VBool true)
           [VStr "x"]); [repeat constructor|reflexivity|done..].
Defined.

(** C5 as stated fails: the boolean [false] is none of a string, a number or
    an object, and [exec(false)] throws nothing and runs the binary without
    arguments; so does [exec(undefined)]. *)
Lemma C5_false_counterexample :
  typeof (VBool false) = TBoolean ∧
  (exec quiet hab ∅ [VBool false]).2
    = inr ("", ExecFile (Request "hab" [] initial_options (Dict ∅ ProtoEnv))) ∧
  (exec quiet hab ∅ [VUndefined; VStr "pkg"]).2
    = inr ("", ExecFile (Request "hab" [] initial_options (Dict ∅ ProtoEnv))).
Proof. split_and!; vm_compute; reflexivity. Qed.

(** ** The effect on the caller's objects *)

Lemma options_not_deleted : "$options" ∉ deleted_directives.
Proof. apply (bool_decide_unpack _). vm_compute. exact I. Qed.

(** C10 (amended). An option map that the scan reaches (every argument
    before it is a truthy string, number or object) is changed in place,
    whether the call then launches the binary or throws: after the
    call the caller's object at the same location is the object it was
    without the keys [$nullOnError], [$spawn], [$shell], [$env],
    [$preserveEnv], [$passthrough] and [$wait], none of which it has any
    longer, while [$options] is still there with its value; and an object
    that is not among the arguments is as it was. *)
Theorem C10_directives_deleted_in_place rt this h pre l post :
  Forall (λ v, scannable v = true) pre →
  let h' := (exec rt this h (pre ++ VObj l :: post)).1 in
  heap_get h' l = strip_directives (heap_get h l) ∧
  (∀ key, key ∈ deleted_directives → has_key key (heap_get h' l) = false) ∧
  has_key "$options" (heap_get h' l) = has_key "$options" (heap_get h l) ∧
  get_prop "$options" (heap_get h' l) = get_prop "$options" (heap_get h l) ∧
  (∀ l', l' ∉ objects_of (pre ++ VObj l :: post) → heap_get h' l' = heap_get h l').
Proof.
  intros Hpre h'. subst h'. rewrite exec_heap.
  assert (heap_get (scan (pre ++ VObj l :: post) h initial_state).1 l
          = strip_directives (heap_get h l)) as Hl.
  { destruct (scan_app pre (VObj l :: post) h initial_state Hpre)
      as (h1 & st1 & Hpre1 & ->).
    rewrite scan_cons_object.
    assert (strip_directives (heap_get h1 l) = strip_directives (heap_get h l))
      as Hstrip.
    { pose proof (scan_heap_cases pre h initial_state l) as Hc.
      rewrite Hpre1 in Hc. cbn [fst] in Hc.
      destruct Hc as [->| ->]; [done|apply strip_directives_idemp]. }
    destruct (scan_heap_cases post (scan_object l h1 st1).1
                (scan_object l h1 st1).2 l) as [->| ->];
      rewrite scan_object_heap, decide_True by done;
      by rewrite ?strip_directives_idemp. }
  rewrite Hl. split_and!; [done| | | |].
  - intros key Hkey. apply has_key_false.
    rewrite strip_directives_keys. tauto.
  - apply eq_true_iff_eq. rewrite !has_key_true, strip_directives_keys.
    pose proof options_not_deleted. tauto.
  - apply get_prop_strip, options_not_deleted.
  - intros l' Hl'. by apply scan_heap_frame.
Qed.

Lemma C10_directives_deleted_in_place_witness :
  Forall (λ v, scannable v = true) [VStr "pkg"] ∧
  heap_get (exec quiet hab mixed_example ([VStr "pkg"] ++ VObj 0 :: [])).1 0
    = [("$options", VObj 1); ("force", VBool true)] ∧
  heap_get (exec quiet hab mixed_example ([VStr "pkg"] ++ VObj 0 :: [])).1 2
    = [("$spawn", VBool true)].
Proof.
  split; [repeat constructor|].
  destruct (C10_directives_deleted_in_place quiet hab mixed_example
              [VStr "pkg"] 0 []) as (Hl & _ & _ & _ & Hframe);
    [repeat constructor|].
  split; [by rewrite Hl|]. rewrite Hframe; [done|].
  apply (bool_decide_unpack _). vm_compute. exact I.
Defined.

(** C10 as stated fails for an option map behind a falsy argument: the call
    returns, having launched the binary, and the caller's object still has
    its directive. *)
Lemma C10_unreached_map_counterexample :
  (strategy_of <$>
     launch_of (exec quiet hab spawn_unreached [VStr "pkg"; VUndefined; VObj 0]))
    = Some DirectStrategy ∧
  has_key "$spawn"
    (heap_get (exec quiet hab spawn_unreached [VStr "pkg"; VUndefined; VObj 0]).1 0)
    = true.
Proof. split; vm_compute; reflexivity. Qed.

(** ** The options after an option map *)

Section options.
Implicit Types (h : gmap nat (list (string * value))) (st : scan_state).
Implicit Types (hs : gmap nat (list (string * value)) * scan_state).
Implicit Types (d : dict) (P : dict → Prop).

Lemma dict_set_own_ne key k v d :
  k ≠ key → d_own (dict_set key v d) !! k = d_own d !! k.
Proof.
  intros Hne. unfold dict_set.
  destruct (decide (key = "__proto__")); [destruct (d_proto d)|];
    cbn; rewrite ?lookup_insert_ne by done; try done; by destruct v.
Qed.

Lemma dict_set_own_eq key v d :
  key ≠ "__proto__" → d_own (dict_set key v d) !! key = Some v.
Proof.
  intros Hne. unfold dict_set. rewrite decide_False by done.
  cbn. by rewrite lookup_insert_eq.
Qed.

Lemma dict_set_proto key v d :
  key ≠ "__proto__" → d_proto (dict_set key v d) = d_proto d.
Proof. intros Hne. unfold dict_set. by rewrite decide_False. Qed.

Lemma dict_get_own h key v d : d_own d !! key = Some v → dict_get h key d = v.
Proof. intros Hv. unfold dict_get. by rewrite Hv. Qed.

Lemma dict_get_none h key d :
  d_own d !! key = None → d_proto d = ProtoObject → dict_get h key d = VUndefined.
Proof. intros Hv Hp. unfold dict_get. by rewrite Hv, Hp. Qed.

(** Another directive block leaves a key of the option map as it is. *)
Lemma directive_has_key key body deletes l hs k :
  k ≠ key →
  has_key k (heap_get (directive key body deletes l hs).1 l)
  = has_key k (heap_get hs.1 l).
Proof.
  intros Hne. destruct deletes.
  - rewrite directive_heap_deleted, decide_True by done.
    rewrite has_key_delete_prop. by rewrite bool_decide_eq_true_2.
  - by rewrite directive_heap_kept.
Qed.

Lemma directive_get_prop key body deletes l hs k :
  k ≠ key →
  get_prop k (heap_get (directive key body deletes l hs).1 l)
  = get_prop k (heap_get hs.1 l).
Proof.
  intros Hne. destruct deletes.
  - rewrite directive_heap_deleted, decide_True by done.
    by apply get_prop_delete_prop.
  - by rewrite directive_heap_kept.
Qed.

Lemma directive_options_inv P key body deletes l hs :
  (has_key key (heap_get hs.1 l) = true → P (execOptions hs.2) →
   P (execOptions (body (get_prop key (heap_get hs.1 l)) hs.1 hs.2))) →
  P (execOptions hs.2) →
  P (execOptions (directive key body deletes l hs).2).
Proof.
  intros Hbody HP. rewrite directive_state.
  destruct (has_key _ _); auto.
Qed.

Lemma take_env_options v h st : execOptions (take_env v h st) = execOptions st.
Proof.
  unfold take_env. generalize (enumerate h v) as kvs. intros kvs. revert st.
  induction kvs as [|kv kvs IH]; intros st; [done|]. cbn. by rewrite IH.
Qed.

Lemma take_options_inv P v h st :
  (∀ k x d, P d → P (dict_set k x d)) →
  P (execOptions st) → P (execOptions (take_options v h st)).
Proof.
  intros Hset. unfold take_options. generalize (enumerate h v) as kvs.
  intros kvs. revert st.
  induction kvs as [|kv kvs IH]; intros st HP; [done|].
  cbn. apply IH. cbn. by apply Hset.
Qed.

Lemma take_passthrough_options v h st :
  execOptions (take_passthrough v h st) =
  if truthy v
  then dict_set "spawn" (VBool true)
         (dict_set "passthrough" (VBool (truthy v)) (execOptions st))
  else dict_set "passthrough" (VBool (truthy v)) (execOptions st).
Proof. unfold take_passthrough. by destruct (truthy v). Qed.

(** The options after the object case come from the options before it by
    the assignments of the directives that the option map has. *)
Lemma scan_object_options_inv P l h st :
  let o := heap_get h l in
  (has_key "$nullOnError" o = true →
     ∀ d, P d → P (dict_set "nullOnError" (get_prop "$nullOnError" o) d)) →
  (has_key "$spawn" o = true →
     ∀ d, P d → P (dict_set "spawn" (get_prop "$spawn" o) d)) →
  (has_key "$shell" o = true →
     ∀ d, P d → P (dict_set "shell" (get_prop "$shell" o) d)) →
  (has_key "$preserveEnv" o = true →
     ∀ d, P d → P (dict_set "preserveEnv" (get_prop "$preserveEnv" o) d)) →
  (has_key "$options" o = true → ∀ k x d, P d → P (dict_set k x d)) →
  (has_key "$passthrough" o = true →
     ∀ d, P d →
       let d' := dict_set "passthrough"
                   (VBool (truthy (get_prop "$passthrough" o))) d in
       P (if truthy (get_prop "$passthrough" o)
          then dict_set "spawn" (VBool true) d' else d')) →
  (has_key "$wait" o = true →
     ∀ d, P d → P (dict_set "wait" (VBool (truthy (get_prop "$wait" o))) d)) →
  P (execOptions st) →
  P (execOptions (scan_object l h st).2).
Proof.
  intros o Hnull Hspawn Hshell Hpres Hopts Hpass Hwait HP.
  unfold scan_object. cbn [snd with_args execOptions].
  repeat (apply directive_options_inv;
    [rewrite ?directive_has_key, ?directive_get_prop by done;
     cbn [fst]; fold o; intros Hk HP';
     first [ by apply Hwait
           | rewrite take_passthrough_options; by apply (Hpass Hk)
           | by apply Hpres
           | by apply Hshell | by apply Hspawn | by apply Hnull
           | by rewrite take_env_options
           | apply take_options_inv; [by apply Hopts|done] ] |]).
  done.
Qed.

End options.

(** ** Options that later arguments leave alone *)

Section keeping.
Implicit Types (h : gmap nat (list (string * value))) (st : scan_state).
Implicit Types (args pre post : list value) (P : dict → Prop).

Lemma shrunk_scan_object h0 h l st :
  shrunk h0 h → shrunk h0 (scan_object l h st).1.
Proof.
  intros Hs l' key. rewrite scan_object_heap.
  destruct (decide (l' = l)) as [->|]; [|apply Hs].
  rewrite has_key_true, strip_directives_keys, <- has_key_true.
  intros [_ Hk]. by apply Hs.
Qed.

Lemma scan_object_closed P l h st :
  closed_under P (heap_get h l) →
  P (execOptions st) → P (execOptions (scan_object l h st).2).
Proof.
  intros (Hnull & Hspawn & Hshell & Hpres & Hopts & Hpass & Hwait).
  apply scan_object_options_inv; auto.
  intros Hk d Hd. destruct (Hpass Hk d Hd). by destruct (truthy _).
Qed.

Lemma closed_under_shrunk P h0 h l :
  shrunk h0 h → closed_under P (heap_get h0 l) → closed_under P (heap_get h l).
Proof.
  intros Hs (Hnull & Hspawn & Hshell & Hpres & Hopts & Hpass & Hwait).
  unfold closed_under. split_and!; intros Hk%Hs; auto.
Qed.

(** A property of the options that every option map reached keeps holds at
    the end of the scan, and the scan ends without exception when all it
    reaches is scannable. *)
Lemma scan_options_inv P h0 post : ∀ h st,
  shrunk h0 h →
  Forall (λ v, scannable v = true) (scanned post) →
  (∀ l, l ∈ objects_of (scanned post) → closed_under P (heap_get h0 l)) →
  P (execOptions st) →
  ∃ h' st', scan post h st = (h', inr st') ∧ P (execOptions st').
Proof.
  induction post as [|v post IH]; intros h st Hs Hsc Hcl HP; [by eauto|].
  destruct (truthy v) eqn:Hv; [|rewrite scan_cons_falsy by done; by eauto].
  cbn [scanned] in Hsc, Hcl. rewrite Hv in Hsc, Hcl.
  apply Forall_cons in Hsc as [Hv1 Hsc].
  assert (∀ l, l ∈ objects_of (scanned post) → closed_under P (heap_get h0 l))
    as Hcl'.
  { intros l Hl. apply Hcl. unfold objects_of. rewrite bind_cons.
    apply elem_of_app. by right. }
  destruct (scannable_cases v Hv1) as [(s & -> & _)|[(n & -> & _)|(l & ->)]].
  - rewrite scan_cons_string by done.
    destruct (truthy (command st)); by apply IH.
  - rewrite scan_cons_number by done. by apply IH.
  - rewrite scan_cons_object. apply IH; [by apply shrunk_scan_object|done..|].
    apply scan_object_closed; [|done].
    apply (closed_under_shrunk P h0); [done|]. apply Hcl.
    unfold objects_of. rewrite bind_cons. apply elem_of_app. left.
    by apply list_elem_of_singleton.
Qed.

Lemma no_override_has_key key h l :
  no_override key h (VObj l) = true →
  has_key key (heap_get h l) = false ∧ has_key "$options" (heap_get h l) = false.
Proof.
  unfold no_override. rewrite andb_true_iff, !negb_true_iff. done.
Qed.

Lemma no_override_objects key h args l :
  Forall (λ v, no_override key h v = true) args →
  l ∈ objects_of args →
  has_key key (heap_get h l) = false ∧ has_key "$options" (heap_get h l) = false.
Proof.
  intros Hall Hl. unfold objects_of in Hl.
  apply list_elem_of_bind in Hl as (v & Hv & Hin).
  rewrite Forall_forall in Hall. specialize (Hall v Hin).
  destruct v; try by apply elem_of_nil in Hv.
  apply list_elem_of_singleton in Hv as ->. by apply no_override_has_key.
Qed.



End keeping.

(** ** The choice of the strategy *)

Section strategy.
Implicit Types (h : gmap nat (list (string * value))) (st : scan_state).
Implicit Types (args pre post : list value).

Lemma shrunk_scan args h st : shrunk h (scan args h st).1.
Proof.
  intros l key. destruct (scan_heap_cases args h st l) as [->| ->]; [done|].
  rewrite !has_key_true, strip_directives_keys. tauto.
Qed.

(** A scan that ends without exception has reached scannable arguments
    only. *)
Lemma scan_ok_scannable args : ∀ h st h' st',
  scan args h st = (h', inr st') →
  Forall (λ v, scannable v = true) (scanned args).
Proof.
  induction args as [|v args IH]; intros h st h' st' Hscan; [constructor|].
  cbn [scanned]. destruct (truthy v) eqn:Hv; [|constructor].
  destruct (scannable v) eqn:Hsc;
    [|by rewrite scan_cons_unsupported in Hscan].
  constructor; [done|].
  destruct (scannable_cases v Hsc) as [(s & -> & _)|[(n & -> & _)|(l & ->)]].
  - rewrite scan_cons_string in Hscan by done.
    destruct (truthy (command st)); eauto.
  - rewrite scan_cons_number in Hscan by done. eauto.
  - rewrite scan_cons_object in Hscan. eauto.
Qed.



(** After an option map met for the first time, the scan of the rest keeps a
    property of the options that the later option maps keep; the scan ends
    without exception when all it reaches is scannable. *)
Lemma scan_after_object_total P h pre l post :
  Forall (λ v, scannable v = true) pre →
  l ∉ objects_of pre →
  Forall (λ v, scannable v = true) (scanned post) →
  (∀ h1 st, heap_get h1 l = heap_get h l →
            P (execOptions (scan_object l h1 st).2)) →
  (∀ l', l' ∈ objects_of (scanned post) → closed_under P (heap_get h l')) →
  ∃ h' st', scan (pre ++ VObj l :: post) h initial_state = (h', inr st') ∧
            P (execOptions st').
Proof.
  intros Hpre Hl Hpost Hobj Hcl.
  destruct (scan_app pre (VObj l :: post) h initial_state Hpre)
    as (h1 & st1 & Hpre1 & ->).
  rewrite scan_cons_object.
  pose proof (scan_heap_frame pre h initial_state l Hl) as Hsame.
  pose proof (shrunk_scan pre h initial_state) as Hshr.
  rewrite Hpre1 in Hsame, Hshr. cbn [fst] in *.
  apply (scan_options_inv P h); [by apply shrunk_scan_object|done..|].
  by apply Hobj.
Qed.

Lemma scan_after_object P h pre l post h' st' :
  Forall (λ v, scannable v = true) pre →
  l ∉ objects_of pre →
  scan (pre ++ VObj l :: post) h initial_state = (h', inr st') →
  (∀ h1 st, heap_get h1 l = heap_get h l →
            P (execOptions (scan_object l h1 st).2)) →
  (∀ l', l' ∈ objects_of (scanned post) → closed_under P (heap_get h l')) →
  P (execOptions st').
Proof.
  intros Hpre Hl Hscan Hobj Hcl.
  pose proof (scan_ok_scannable _ _ _ _ _ Hscan) as Hall.
  rewrite (scanned_app _ _ Hpre) in Hall. cbn [scanned truthy] in Hall.
  apply Forall_app in Hall as [_ [_ Hpost]%Forall_cons].
  destruct (scan_after_object_total P h pre l post) as (h2 & st2 & Hscan2 & HP);
    [done..|].
  congruence.
Qed.

(** The same for a property that holds from the start. *)
Lemma scan_from_start P h args h' st' :
  scan args h initial_state = (h', inr st') →
  P initial_options →
  (∀ l, l ∈ objects_of (scanned args) → closed_under P (heap_get h l)) →
  P (execOptions st').
Proof.
  intros Hscan HP Hcl.
  destruct (scan_options_inv P h args h initial_state)
    as (h2 & st2 & Hscan2 & HP2);
    [by intros ??|by eapply scan_ok_scannable|done|done|].
  congruence.
Qed.

End strategy.

(** ** A spawn that later arguments leave selected *)

Section spawn_kept.
Implicit Types (h : gmap nat (list (string * value))) (st : scan_state).
Implicit Types (hs : gmap nat (list (string * value)) * scan_state).
Implicit Types (args pre post : list value) (d : dict).












End spawn_kept.




(** ** Trimming and splitting *)

Section text.
Implicit Types (s : string) (l : list ascii) (c : ascii).

Lemma append_cons c s (rest : string) : String c s +:+ rest = String c (s +:+ rest).
Proof. reflexivity. Qed.

Lemma append_nil (rest : string) : "" +:+ rest = rest.
Proof. reflexivity. Qed.


Lemma drop_space_clean l : starts_clean (drop_space l).
Proof.
  induction l as [|c l IH]; [done|]. cbn.
  destruct (is_space c) eqn:Hc; [done|]. by cbn.
Qed.

Lemma drop_space_id l : starts_clean l → drop_space l = l.
Proof. destruct l as [|c l]; [done|]. cbn. by intros ->. Qed.

Lemma drop_space_suffix l : ∃ spaces, l = spaces ++ drop_space l.
Proof.
  induction l as [|c l [spaces IH]]; [by exists []|]. cbn.
  destruct (is_space c); [|by exists []].
  exists (c :: spaces). cbn. by rewrite <- IH.
Qed.

(** The characters of a trimmed string start and end clean. *)
Lemma trim_chars_clean l :
  starts_clean (rev (drop_space (rev (drop_space l)))) ∧
  starts_clean (rev (rev (drop_space (rev (drop_space l))))).
Proof.
  rewrite rev_involutive. split; [|apply drop_space_clean].
  pose proof (drop_space_clean l) as Hm.
  destruct (drop_space_suffix (rev (drop_space l))) as [spaces Hsp].
  apply (f_equal (λ x, rev x)) in Hsp. rewrite rev_involutive, rev_app_distr in Hsp.
  rewrite Hsp in Hm.
  by destruct (rev (drop_space (rev (drop_space l)))).
Qed.

Lemma trim_trimmed s : trimmed (trim s).
Proof.
  unfold trimmed, trim. rewrite String.list_ascii_of_string_of_list_ascii.
  apply trim_chars_clean.
Qed.

Lemma trim_idemp s : trim (trim s) = trim s.
Proof.
  unfold trim at 1.
  destruct (trim_trimmed s) as [H1 H2].
  rewrite (drop_space_id _ H1), (drop_space_id _ H2).
  rewrite rev_involutive. apply String.string_of_list_ascii_of_string.
Qed.

Lemma is_newline_true c : is_newline c = true ↔ c = "010"%char.
Proof.
  split; [|by intros ->].
  destruct c as [[] [] [] [] [] [] [] []]; cbn; congruence.
Qed.

Lemma split_newline_nonempty s : split_newline s ≠ [].
Proof.
  destruct s as [|c s]; [done|]. cbn.
  destruct (is_newline c); [done|]. by destruct (split_newline s).
Qed.

Lemma join_newline_cons_head c lines :
  lines ≠ [] → join_newline (cons_head c lines) = String c (join_newline lines).
Proof. destruct lines as [|line [|line' rest]]; done. Qed.

(** Splitting at the line feeds and joining with line feeds gives the text
    back. *)
Lemma join_split_newline s : join_newline (split_newline s) = s.
Proof.
  induction s as [|c s IH]; [done|]. cbn [split_newline].
  pose proof (split_newline_nonempty s) as Hne.
  destruct (is_newline c) eqn:Hc.
  - apply is_newline_true in Hc as ->. cbn [join_newline].
    destruct (split_newline s) as [|line rest] eqn:Hs; [done|].
    rewrite append_nil. by rewrite IH.
  - rewrite join_newline_cons_head by done. by rewrite IH.
Qed.

Lemma split_newline_lines s : Forall no_newline (split_newline s).
Proof.
  induction s as [|c s IH]; [by repeat constructor|]. cbn [split_newline].
  destruct (is_newline c) eqn:Hc; [by constructor; [constructor|]|].
  destruct (split_newline s) as [|line rest]; [by repeat constructor|].
  apply Forall_cons in IH as [Hline Hrest]. cbn.
  constructor; [|done]. by constructor.
Qed.

Lemma split_gaps_whole s : no_gap s = true → split_gaps_from false s = [s].
Proof.
  induction s as [|c s IH]; [done|]. cbn.
  intros [Hc Hs]%andb_true_iff. apply negb_true_iff in Hc.
  rewrite (IH Hs). destruct (is_space c); [|done].
  cbn in Hc. by rewrite Hc.
Qed.

Lemma split_gaps_from_nonempty s : ∀ in_gap, split_gaps_from in_gap s ≠ [].
Proof.
  induction s as [|c s IH]; intros in_gap; [done|]. cbn.
  destruct (is_space c), in_gap; try done;
    try (destruct (starts_with_space s); [done|]);
    specialize (IH false); by destruct (split_gaps_from false s).
Qed.






Lemma starts_clean_app l l' :
  l ≠ [] → starts_clean (l ++ l') ↔ starts_clean l.
Proof. by destruct l. Qed.

Lemma gap_starts_with_space g (rest : string) :
  is_gap g → starts_with_space (g +:+ rest) = true.
Proof.
  intros [Hlen Hg]. destruct g as [|c g]; [cbn in Hlen; lia|].
  by apply Forall_cons in Hg as [Hc _].
Qed.

(** A character in front of a line goes to its first field, as long as it
    does not make a separator with what follows. *)
Lemma gap_split_cons_head c rest fields :
  gap_split rest fields →
  is_space c = false ∨ starts_with_space rest = false →
  gap_split (String c rest) (cons_head c fields).
Proof.
  intros Hsplit Hc.
  destruct Hsplit as [f Hf|f g r fields Hf He Hg Hr Hrest]; cbn [cons_head].
  - apply gap_split_last. cbn [no_gap]. rewrite Hf.
    destruct Hc as [->| ->]; by rewrite ?andb_false_r.
  - assert (f = "" → is_space c = false) as Hempty.
    { intros ->. destruct Hc as [Hc|Hc]; [done|].
      rewrite append_nil in Hc. by rewrite gap_starts_with_space in Hc. }
    rewrite <- append_cons. apply gap_split_cons; try done.
    + cbn [no_gap]. rewrite Hf, andb_true_r. apply negb_true_iff.
      destruct f as [|a' f']; [by rewrite Hempty|].
      destruct Hc as [->|Hc]; [done|]. rewrite append_cons in Hc. cbn in Hc.
      cbn. by rewrite Hc, andb_false_r.
    + unfold ends_clean in *. cbn [String.list_ascii_of_string rev].
      destruct f as [|a' f']; [cbn; by apply Hempty|].
      apply starts_clean_app; [|done].
      cbn. by intros [_ ?]%app_eq_nil.
Qed.

(** The split, read from the start of a field and from inside a
    separator. *)
Lemma split_gaps_from_spec s :
  gap_split s (split_gaps_from false s) ∧
  ∃ g rest,
    s = g +:+ rest ∧ all_space (String.list_ascii_of_string g) ∧
    starts_with_space rest = false ∧
    split_gaps_from true s = split_gaps_from false rest ∧
    gap_split rest (split_gaps_from false rest).
Proof.
  induction s as [|c s [IH (g & rest & Hs & Hg & Hr & Heq & Hrest)]].
  { split; [by apply gap_split_last|].
    exists "", "". split_and!; try done; [constructor|by apply gap_split_last]. }
  assert (gap_split (String c s) (split_gaps_from false (String c s))) as Hfield.
  { cbn [split_gaps_from]. destruct (is_space c) eqn:Hc;
      [|apply gap_split_cons_head; [done|by left]].
    destruct (starts_with_space s) eqn:Hss;
      [|apply gap_split_cons_head; [done|by right]].
    rewrite Heq. rewrite Hs.
    change (String c (g +:+ rest)) with ("" +:+ String c g +:+ rest).
    apply gap_split_cons; try done.
    split; [|by constructor].
    destruct g as [|a g]; [|cbn; lia].
    rewrite append_nil in Hs. subst s. congruence. }
  split; [done|]. destruct (is_space c) eqn:Hc.
  - exists (String c g), rest. split_and!; try done.
    + by rewrite append_cons, <- Hs.
    + by constructor.
    + cbn [split_gaps_from]. by rewrite Hc.
  - exists "", (String c s). split_and!; try done; [constructor|].
    cbn [split_gaps_from]. by rewrite Hc.
Qed.

(** The fields of [split(/\s{2,}/)] are what lies between the separators. *)
Lemma split_gaps_spec s : gap_split s (split_gaps s).
Proof. apply split_gaps_from_spec. Qed.

Lemma ends_clean_tail c f : ends_clean (String c f) → ends_clean f.
Proof.
  unfold ends_clean. cbn [String.list_ascii_of_string rev].
  destruct f as [|a' f']; [done|]. apply starts_clean_app.
  cbn. by intros [_ ?]%app_eq_nil.
Qed.

Lemma split_gaps_from_clean rest :
  starts_with_space rest = false →
  split_gaps_from true rest = split_gaps_from false rest.
Proof. destruct rest as [|c rest]; [done|]. cbn. by intros ->. Qed.

Lemma split_gaps_from_gap g (rest : string) :
  all_space (String.list_ascii_of_string g) →
  starts_with_space rest = false →
  split_gaps_from true (g +:+ rest) = split_gaps_from false rest.
Proof.
  intros Hg Hrest. induction g as [|c g IH];
    [by apply split_gaps_from_clean|].
  apply Forall_cons in Hg as [Hc Hg]. rewrite append_cons.
  cbn [split_gaps_from]. rewrite Hc. by apply IH.
Qed.

Lemma split_gaps_at_gap g (rest : string) :
  is_gap g → starts_with_space rest = false →
  split_gaps_from false (g +:+ rest) = "" :: split_gaps_from false rest.
Proof.
  intros [Hlen Hg] Hrest.
  destruct g as [|c [|c' g]]; [cbn in Hlen; lia..|].
  apply Forall_cons in Hg as [Hc Hg]. pose proof Hg as [Hc' _]%Forall_cons.
  rewrite append_cons. cbn [split_gaps_from]. rewrite Hc.
  rewrite append_cons. cbn [starts_with_space]. rewrite Hc'.
  rewrite <- append_cons. f_equal. by apply split_gaps_from_gap.
Qed.

Lemma split_gaps_field f (tail : string) fields :
  no_gap f = true → ends_clean f →
  split_gaps_from false tail = "" :: fields →
  split_gaps_from false (f +:+ tail) = f :: fields.
Proof.
  intros Hf He Htail. induction f as [|c f IH]; [done|].
  cbn [no_gap] in Hf. apply andb_true_iff in Hf as [Hc Hf].
  apply negb_true_iff in Hc.
  specialize (IH Hf (ends_clean_tail _ _ He)).
  rewrite append_cons. cbn [split_gaps_from]. rewrite IH.
  destruct (is_space c) eqn:Hsp; [|done].
  destruct f as [|a' f'].
  - unfold ends_clean in He. cbn in He. congruence.
  - cbn in Hc. rewrite append_cons. cbn [starts_with_space]. by rewrite Hc.
Qed.

(** The fields of a line are those of [split(/\s{2,}/)] and no others. *)
Lemma gap_split_unique s fields : gap_split s fields → split_gaps s = fields.
Proof.
  unfold split_gaps.
  induction 1 as [f Hf|f g rest fields Hf He Hg Hrest _ IH];
    [by apply split_gaps_whole|].
  apply split_gaps_field; [done..|].
  rewrite split_gaps_at_gap by done. by rewrite IH.
Qed.

End text.

(** ** The capturing strategies *)





(** ** The child process and [captureOutput] *)

Section child.
Implicit Types (c : child) (es : list event).

Lemma child_event_shape e c :
  ch_capturePromise (child_event e c) = ch_capturePromise c ∧
  length (ch_captures (child_event e c)) = length (ch_captures c).
Proof. destruct e; cbn; by rewrite length_fmap. Qed.

Lemma child_events_shape es : ∀ c,
  ch_capturePromise (child_events es c) = ch_capturePromise c ∧
  length (ch_captures (child_events es c)) = length (ch_captures c).
Proof.
  unfold child_events. induction es as [|e es IH]; intros c; [done|].
  cbn [foldl]. destruct (IH (child_event e c)) as [-> ->].
  apply child_event_shape.
Qed.

Lemma captureOutput_first input c :
  ch_capturePromise c = None →
  (captureOutput input c).2 = length (ch_captures c) ∧
  ch_capturePromise (captureOutput input c).1 = Some (length (ch_captures c)) ∧
  ch_captures (captureOutput input c).1 = ch_captures c ++ [Capture "" Pending].
Proof.
  intros Hnone. unfold captureOutput. rewrite Hnone.
  by destruct (truthy input).
Qed.

Lemma captureOutput_again input c p :
  ch_capturePromise c = Some p →
  (captureOutput input c).2 = p ∧
  ch_capturePromise (captureOutput input c).1 = Some p ∧
  ch_captures (captureOutput input c).1 = ch_captures c.
Proof.
  intros Hsome. unfold captureOutput. rewrite Hsome.
  destruct (truthy input); cbn; by rewrite ?Hsome.
Qed.

End child.

(** C7. On the child process that the spawn strategy returns, whatever the
    process emits before the first call of [captureOutput] and between the
    first and the second (so that the second comes before or after the first
    promise settles), the second call returns the promise of the first, in
    the state it has by then; it establishes nothing: the captures of the
    child are the same before and after it, and there is exactly one, that of
    the first call. *)
Theorem C7_captureOutput_memoized before between input1 input2 :
  let first := captureOutput input1 (child_events before spawned) in
  let later := child_events between first.1 in
  let second := captureOutput input2 later in
  second.2 = first.2 ∧
  ch_captures second.1 !! second.2 = ch_captures later !! first.2 ∧
  ch_captures second.1 = ch_captures later ∧
  length (ch_captures second.1) = 1 ∧
  length (ch_captures first.1) = 1.
Proof.
  intros first later second.
  destruct (child_events_shape before spawned) as [Hp0 Hl0]. cbn in Hp0, Hl0.
  destruct (captureOutput_first input1 _ Hp0) as (Hr1 & Hp1 & Hc1).
  fold first in Hr1, Hp1, Hc1. rewrite Hl0 in Hr1, Hp1.
  destruct (child_events_shape between first.1) as [Hp2 Hl2].
  fold later in Hp2, Hl2. rewrite Hp1 in Hp2.
  destruct (captureOutput_again input2 _ _ Hp2) as (Hr2 & Hp3 & Hc2).
  fold second in Hr2, Hp3, Hc2.
  assert (length (ch_captures first.1) = 1) as Hone.
  { rewrite Hc1, length_app, Hl0. done. }
  rewrite Hr1, Hr2, Hc2, Hl2. done.
Qed.

(** ** The version pattern *)

Section version_pattern.
Implicit Types (s v b rest : string) (c : ascii).

Lemma is_slash_true c : is_slash c = true ↔ c = "/"%char.
Proof.
  split; [|by intros ->].
  destruct c as [[] [] [] [] [] [] [] []]; cbn; congruence.
Qed.

Lemma nonempty_true s : nonempty s = true ↔ s ≠ "".
Proof. destruct s; cbn; split; congruence. Qed.

Lemma all_digits_Forall b :
  all_digits b = true ↔
  Forall (λ c, is_digit c = true) (String.list_ascii_of_string b).
Proof.
  induction b as [|c b IH]; cbn.
  - split; [constructor|done].
  - rewrite andb_true_iff, Forall_cons, IH. done.
Qed.

Lemma strip_prefix_Some p s rest : strip_prefix p s = Some rest ↔ s = p +:+ rest.
Proof.
  revert s. induction p as [|a p IH]; intros s; cbn.
  - rewrite append_nil. split; congruence.
  - rewrite append_cons. destruct s as [|c s]; [split; congruence|].
    destruct (Ascii.eqb a c) eqn:Hac.
    + apply Ascii.eqb_eq in Hac as ->. rewrite IH. split; congruence.
    + apply Ascii.eqb_neq in Hac. split; congruence.
Qed.

Lemma break_slash_Some s v b :
  break_slash s = Some (v, b) ↔
  s = v +:+ "/" +:+ b ∧
  Forall (λ c, is_slash c = false) (String.list_ascii_of_string v).
Proof.
  revert v. induction s as [|c s IH]; intros v; cbn.
  - split; [done|]. intros [Hs _]. by destruct v.
  - destruct (is_slash c) eqn:Hc.
    + apply is_slash_true in Hc as ->. split.
      * intros [= <- <-]. split; [reflexivity|constructor].
      * intros [Hs Hv]. destruct v as [|c' v].
        { rewrite append_nil, append_cons, append_nil in Hs. congruence. }
        rewrite append_cons in Hs. injection Hs as <- _.
        apply Forall_cons in Hv as [Hv _]. done.
    + destruct (break_slash s) as [[v' b']|] eqn:Hbreak.
      * split.
        -- intros [= <- <-]. destruct (proj1 (IH v') eq_refl) as [-> Hv'].
           split; [done|]. cbn. by constructor.
        -- intros [Hs Hv]. destruct v as [|c' v].
           { rewrite append_nil, append_cons in Hs. injection Hs as -> _. done. }
           rewrite append_cons in Hs. injection Hs as <- Hs.
           cbn in Hv. apply Forall_cons in Hv as [_ Hv].
           assert (Some (v', b') = Some (v, b)) as [= -> ->]; [|done].
           by apply IH.
      * split; [done|]. intros [Hs Hv]. destruct v as [|c' v].
        { rewrite append_nil, append_cons in Hs. injection Hs as -> _. done. }
        rewrite append_cons in Hs. injection Hs as <- Hs.
        cbn in Hv. apply Forall_cons in Hv as [_ Hv].
        assert (None = Some (v, b)); [|done]. by apply IH.
Qed.

(** The pattern matches exactly the lines of the form
    [hab <version>/<build>], and the groups are the version and the build. *)
Lemma match_version_spec s v b :
  match_version s = Some (v, b) ↔ version_line s v b.
Proof.
  unfold match_version, version_line. split.
  - destruct (strip_prefix "hab " s) as [rest|] eqn:Hrest; [|done].
    destruct (break_slash rest) as [[v' b']|] eqn:Hbreak; [|done].
    destruct (nonempty v' && nonempty b' && all_digits b') eqn:Hok; [|done].
    intros [= <- <-].
    apply andb_true_iff in Hok as [[Hv Hb]%andb_true_iff Hd].
    apply strip_prefix_Some in Hrest as ->.
    apply break_slash_Some in Hbreak as [-> Hslash].
    split_and!; [done|by apply nonempty_true|by apply nonempty_true|done|].
    by apply all_digits_Forall.
  - intros (-> & Hv & Hb & Hslash & Hd).
    assert (strip_prefix "hab " ("hab " +:+ v +:+ "/" +:+ b)
            = Some (v +:+ "/" +:+ b)) as -> by by apply strip_prefix_Some.
    assert (break_slash (v +:+ "/" +:+ b) = Some (v, b)) as ->
      by by apply break_slash_Some.
    apply nonempty_true in Hv as ->. apply nonempty_true in Hb as ->.
    apply all_digits_Forall in Hd as ->. done.
Qed.

End version_pattern.

(** ** [getVersion] *)

(** The call [this.exec({ version: true })] runs the binary directly with the
    one argument [--version]. *)
Lemma exec_version rt this :
  exec rt this version_literal [VObj 0] =
  (version_literal,
   inr ("--version",
        ExecFile (Request (i_command this) [VStr "--version"] initial_options
                          (Dict ∅ ProtoEnv)))).
Proof. reflexivity. Qed.

(** C8. With no version cached yet, [getVersion] runs the binary once, with
    the one argument [--version].  When the run succeeds and its trimmed
    output is a line [hab <version>/<build>], the version and the build are
    cached on the instance and the version is returned.  When the run fails
    or the output is no such line, the version is cached as [false], the
    mark of an unavailable version, and [null] is returned.  An instance in
    the unavailable state answers [null], and one with a cached version
    answers it, without running the binary and without a change. *)
Theorem C8_getVersion_caches rt this :
  let request := Request (i_command this) [VStr "--version"] initial_options
                         (Dict ∅ ProtoEnv) in
  let r := capture_result rt (ExecFile request) in
  (i_version this = VNull →
     (getVersion rt this).2 = [ExecFile request] ∧
     (∀ v b, pr_error r = None → version_line (trim (pr_stdout r)) v b →
        getVersion rt this =
          (Instance (i_command this) (VStr v) (VStr b), VStr v, [ExecFile request])) ∧
     (pr_error r ≠ None ∨ (∀ v b, ¬ version_line (trim (pr_stdout r)) v b) →
        getVersion rt this =
          (Instance (i_command this) (VBool false) (i_build this), VNull,
           [ExecFile request]))) ∧
  (i_version this = VBool false → getVersion rt this = (this, VNull, [])) ∧
  (∀ v, i_version this = VStr v → v ≠ "" → getVersion rt this = (this, VStr v, [])).
Proof.
  intros request r. split_and!.
  - intros Hnull. unfold getVersion. rewrite Hnull, exec_version.
    cbn [is_null launched snd fst]. unfold await_exec. cbn [snd fst settle rq_options].
    fold request. fold r. unfold capture_callback, delivered.
    change (buffer_output rt initial_options) with false. cbv iota.
    change (dict_get version_literal "nullOnError" initial_options) with VUndefined.
    cbn [truthy]. split_and!.
    + destruct (pr_error r); [done|]. cbn [subject string_of to_string mbind option_bind].
      by destruct (match_version _) as [[v b]|].
    + intros v b -> Hvl. pose proof Hvl as Hline%match_version_spec.
      destruct Hvl as (_ & Hv & _).
      cbn [subject string_of to_string mbind option_bind]. rewrite Hline. cbn.
      by destruct v.
    + intros [Herr|Hno].
      * by destruct (pr_error r).
      * destruct (pr_error r); [done|].
        cbn [subject string_of to_string mbind option_bind].
        destruct (match_version _) as [[v b]|] eqn:Hm; [|done].
        by apply match_version_spec, Hno in Hm.
  - intros Hfalse. unfold getVersion. rewrite Hfalse. cbn. by rewrite Hfalse.
  - intros v Hv Hne. unfold getVersion. rewrite Hv. cbn. rewrite Hv. cbn.
    destruct v; done.
Qed.

(** ** [getSupervisorStatus] *)

Section status.
Implicit Types (cols vals rows : list string) (d : dict).

(** The call [this.exec('svc', 'status')] runs the binary directly with the
    two arguments. *)
Lemma exec_status rt this :
  exec rt this ∅ [VStr "svc"; VStr "status"] =
  (∅, inr ("svc status",
           ExecFile (Request (i_command this) [VStr "svc"; VStr "status"]
                             initial_options (Dict ∅ ProtoEnv)))).
Proof. reflexivity. Qed.

Lemma status_rows_columns cols rows : ∀ services,
  status_rows (Some cols) rows services =
  services ++ ((λ row, underscore_object cols (split_gaps row)) <$> rows).
Proof.
  induction rows as [|row rows IH]; intros services; cbn.
  - by rewrite app_nil_r.
  - by rewrite IH, <- app_assoc.
Qed.

Lemma status_rows_spec text :
  status_rows None (split_newline text) [] = status_spec text.
Proof.
  unfold status_spec. destruct (split_newline text) as [|header rows]; [done|].
  cbn. by rewrite status_rows_columns.
Qed.

Lemma object_from_other key cols vals : ∀ i d,
  key ∉ cols → d_own (object_from i cols vals d) !! key = d_own d !! key.
Proof.
  induction cols as [|c cols IH]; intros i d Hkey; [done|].
  apply not_elem_of_cons in Hkey as [Hne Hkey]. cbn.
  rewrite IH by done. by apply dict_set_own_ne.
Qed.

Lemma object_from_lookup cols vals : ∀ i d j key,
  NoDup cols → "__proto__" ∉ cols → cols !! j = Some key →
  d_own (object_from i cols vals d) !! key
  = Some (from_option VStr VUndefined (vals !! (i + j))).
Proof.
  induction cols as [|c cols IH]; intros i d j key Hnd Hproto Hj; [done|].
  apply NoDup_cons in Hnd as [Hc Hnd].
  apply not_elem_of_cons in Hproto as [Hpc Hproto].
  destruct j as [|j]; cbn in Hj |- *.
  - injection Hj as ->. rewrite object_from_other by done.
    rewrite Nat.add_0_r. by apply dict_set_own_eq.
  - rewrite (IH (S i) _ j key) by done. by rewrite Nat.add_succ_r.
Qed.

End status.

(** C9 (amended). [getSupervisorStatus] runs the binary once with
    [svc status].  When the run fails it returns [false].  Otherwise the
    trimmed output is split into lines, the first line gives the columns and
    every later line a row, and the result is one record per row that has,
    for each column, the field of the row at the index of the column; it is
    the empty array when the output has one line only, the header or
    nothing.  The fields of a line are what lies between its separators, the
    runs of two or more white-space characters, spaces or not: a separator
    is a whole run, and a single white-space character stays in its
    field. *)
Theorem C9_getSupervisorStatus_rows rt this :
  let request := Request (i_command this) [VStr "svc"; VStr "status"]
                         initial_options (Dict ∅ ProtoEnv) in
  let r := capture_result rt (ExecFile request) in
  let text := trim (pr_stdout r) in
  (getSupervisorStatus rt this).2 = [ExecFile request] ∧
  (pr_error r ≠ None → (getSupervisorStatus rt this).1 = Unavailable) ∧
  (pr_error r = None →
     (getSupervisorStatus rt this).1 = Services (status_spec text) ∧
     ∀ header rows, split_newline text = header :: rows →
       status_spec text =
         ((λ row, underscore_object (split_gaps header) (split_gaps row)) <$> rows) ∧
       (rows = [] → (getSupervisorStatus rt this).1 = Services [])) ∧
  (∀ cols vals j key,
     NoDup cols → "__proto__" ∉ cols → cols !! j = Some key →
     d_own (underscore_object cols vals) !! key
     = Some (from_option VStr VUndefined (vals !! j))) ∧
  (∀ line fields, gap_split line fields ↔ split_gaps line = fields).
Proof.
  intros request r text.
  assert (getSupervisorStatus rt this =
          (match pr_error r with
           | Some _ => Unavailable
           | None => if length (split_newline text) =? 1 then Services []
                     else Services (status_rows None (split_newline text) [])
           end, [ExecFile request])) as Hget.
  { unfold getSupervisorStatus. rewrite exec_status.
    cbn [launched snd fst]. unfold await_exec.
    cbn [snd fst settle rq_options]. fold request. fold r.
    unfold capture_callback, delivered.
    change (buffer_output rt initial_options) with false. cbv iota.
    change (dict_get ∅ "nullOnError" initial_options) with VUndefined.
    cbn [truthy]. by destruct (pr_error r). }
  rewrite Hget. cbn [fst snd]. split_and!; [done| | | |].
  4:{ intros line fields. split; [apply gap_split_unique|].
      intros <-. apply split_gaps_spec. }
  - by destruct (pr_error r).
  - intros ->.
    assert ((if length (split_newline text) =? 1 then Services []
             else Services (status_rows None (split_newline text) []))
            = Services (status_spec text)) as ->.
    { rewrite status_rows_spec. unfold status_spec.
      destruct (split_newline text) as [|header [|row rows]]; done. }
    split; [done|]. intros header rows Hlines. unfold status_spec.
    rewrite Hlines. split; [done|]. by intros ->.
  - intros cols vals j key Hnd Hproto Hj. unfold underscore_object.
    by rewrite (object_from_lookup cols vals 0 _ j key).
Qed.

Lemma C9_getSupervisorStatus_rows_witness :
  ∃ record,
    (getSupervisorStatus one_service hab).1 = Services [record] ∧
    d_own record !! "NAME" = Some (VStr "core/foo") ∧
    d_own record !! "VERSION" = Some (VStr "1.2.3").
Proof.
  destruct (C9_getSupervisorStatus_rows one_service hab)
    as (_ & _ & Hrows & Hzip & _).
  destruct Hrows as [Hresult Hspec]; [reflexivity|].
  destruct (Hspec "NAME  VERSION" ["core/foo  1.2.3"] eq_refl) as [Hrecords _].
  rewrite Hrecords in Hresult.
  eexists. split; [exact Hresult|]. split.
  - apply (Hzip ["NAME"; "VERSION"] ["core/foo"; "1.2.3"] 0 "NAME");
      [by apply (bool_decide_unpack _)|by apply (bool_decide_unpack _)|reflexivity].
  - apply (Hzip ["NAME"; "VERSION"] ["core/foo"; "1.2.3"] 1 "VERSION");
      [by apply (bool_decide_unpack _)|by apply (bool_decide_unpack _)|reflexivity].
Defined.

(** C9 as stated fails: the separators are not runs of spaces only.  Two
    tabs separate the columns and the fields of the output of the example,
    where a split on runs of two or more spaces finds one column. *)
Lemma C9_tabs_separate_counterexample :
  split_spaces tab_header = [tab_header] ∧
  split_gaps tab_header = ["NAME"; "VERSION"] ∧
  ∃ record,
    (getSupervisorStatus tabbed hab).1 = Services [record] ∧
    d_own record !! "NAME" = Some (VStr "core/foo") ∧
    d_own record !! "VERSION" = Some (VStr "1.2.3").
Proof.
  split; [vm_compute; reflexivity|]. split; [vm_compute; reflexivity|].
  eexists. split; [vm_compute; reflexivity|]. split; vm_compute; reflexivity.
Qed.

Lemma C8_getVersion_caches_witness :
  ∃ this',
    (getVersion versioned hab).1 = (this', VStr "1.6.1234") ∧
    i_version this' = VStr "1.6.1234" ∧ i_build this' = VStr "20230101000000" ∧
    getVersion versioned this' = (this', VStr "1.6.1234", []).
Proof.
  destruct (C8_getVersion_caches versioned hab) as ((_ & Hok & _) & _ & _);
    [reflexivity|].
  specialize (Hok "1.6.1234" "20230101000000" eq_refl).
  rewrite Hok.
  2:{ split_and!; [reflexivity|done|done|repeat constructor|repeat constructor]. }
  eexists. split; [reflexivity|]. split; [reflexivity|]. split; [reflexivity|].
  destruct (C8_getVersion_caches versioned
              (Instance (i_command hab) (VStr "1.6.1234") (VStr "20230101000000")))
    as (_ & _ & Hcached).
  by apply Hcached.
Defined.

(** * More properties of the code *)

Import Api Spec2.

(** ** Calls without option maps *)

Section positional_calls.
Implicit Types (h : gmap nat (list (string * value))) (st : scan_state).
Implicit Types (args : list value) (v : value).

Lemma positional_cases v :
  truthy v = true → positional v = true →
  (∃ s, v = VStr s) ∨ (∃ n, v = VNum n).
Proof. destruct v; try discriminate; eauto. Qed.

(** The scan of strings and numbers touches neither the store, nor the
    options, nor the environment, and collects strings only. *)
Lemma scan_positional args : ∀ h st,
  Forall (λ v, positional v = true) (scanned args) →
  all_strings (prefix_command st) →
  ∃ st', scan args h st = (h, inr st') ∧
         execOptions st' = execOptions st ∧
         commandEnv st' = commandEnv st ∧
         all_strings (prefix_command st').
Proof.
  induction args as [|v args IH]; intros h st Hpos Hstr; [by eauto|].
  destruct (truthy v) eqn:Hv; [|rewrite scan_cons_falsy by done; by eauto].
  cbn [scanned] in Hpos. rewrite Hv in Hpos.
  apply Forall_cons in Hpos as [Hp Hpos].
  destruct (positional_cases v Hv Hp) as [[s ->]|[n ->]].
  - rewrite scan_cons_string by done. unfold prefix_command in Hstr.
    destruct (truthy (command st)) eqn:Hc.
    + destruct (IH h (push_args [VStr s] st)) as (st' & -> & Ho & He & Hs);
        [done| |by eauto].
      unfold prefix_command, push_args. cbn [command commandArgs]. rewrite Hc.
      rewrite app_comm_cons. apply Forall_app. split; [done|].
      repeat constructor. by eexists.
    + destruct (IH h (with_command (VStr s) st)) as (st' & -> & Ho & He & Hs);
        [done| |by eauto].
      unfold prefix_command, with_command. cbn [command commandArgs]. rewrite Hv.
      constructor; [by eexists|done].
  - rewrite scan_cons_number by done.
    destruct (IH h (push_args [VStr (number_to_string n)] st))
      as (st' & -> & Ho & He & Hs); [done| |by eauto].
    unfold prefix_command, push_args in *. cbn [command commandArgs].
    destruct (truthy (command st)); rewrite ?app_comm_cons;
      (apply Forall_app; split; [done|]); repeat constructor; by eexists.
Qed.

Lemma join_space_strings rt h vs :
  all_strings vs → is_Some (join_space rt h vs).
Proof.
  induction 1 as [|v vs [s ->] _ IH]; [by eexists|].
  destruct IH as [r Hr]. cbn [join_space]. destruct vs as [|w vs]; [by eexists|].
  rewrite Hr. by eexists.
Qed.

End positional_calls.

(** X1. A call in which the scan reaches strings and numbers only does not
    throw and leaves the caller's store as it is: it runs the binary
    directly ([execFile]), with the output buffer of 1 MB as the only option
    and with an environment that holds nothing of its own and inherits
    [process.env]. *)
Theorem exec_positional_uses_defaults rt this h args :
  Forall (λ v, positional v = true) (scanned args) →
  ∃ line,
    exec rt this h args =
    (h, inr (line,
             ExecFile (Request (i_command this)
                         (command_prefix (first_string (scanned args)) ++
                          argv_spec h false (scanned args))
                         initial_options (Dict ∅ ProtoEnv)))).
Proof.
  intros Hpos.
  destruct (scan_positional args h initial_state Hpos)
    as (st & Hscan & Hopts & Henv & Hstr); [constructor|].
  destruct (join_space_strings rt h _ Hstr) as [line Hline].
  exists line. unfold exec, marshal. rewrite Hscan. cbn [rq_args].
  rewrite Hline. unfold dispatch, prepare_env. cbn [rq_options].
  rewrite Hopts, Henv.
  apply (scan_spec h) in Hscan as [Hc Ha]; [|done|by right].
  cbn in Hc, Ha. unfold prefix_command, command_prefix. rewrite Hc, Ha.
  change (execOptions initial_state) with initial_options.
  change (commandEnv initial_state) with (Dict ∅ ProtoObject).
  change (dict_get h "spawn" initial_options) with VUndefined.
  change (dict_get h "shell" initial_options) with VUndefined.
  change (dict_get h "preserveEnv" initial_options) with VUndefined.
  cbn [truthy is_false negb d_own]. by destruct (truthy (first_string _)).
Qed.

Lemma exec_positional_uses_defaults_witness :
  Forall (λ v, positional v = true)
    (scanned [VStr "pkg"; VStr "install"; VNum (NInt 2 I); VNull; VBool true]) ∧
  ∃ line,
    exec quiet hab ∅ [VStr "pkg"; VStr "install"; VNum (NInt 2 I); VNull; VBool true]
    = (∅, inr (line,
               ExecFile (Request "hab" [VStr "pkg"; VStr "install"; VStr "2"]
                           initial_options (Dict ∅ ProtoEnv)))).
Proof.
  split; [repeat constructor|].
  destruct (exec_positional_uses_defaults quiet hab ∅
              [VStr "pkg"; VStr "install"; VNum (NInt 2 I); VNull; VBool true])
    as [line Hline]; [repeat constructor|].
  exists line. exact Hline.
Defined.

(** ** Options out of reach of the directives *)

Section other_options.
Implicit Types (h : gmap nat (list (string * value))) (st : scan_state).
Implicit Types (o : list (string * value)) (d : dict).

Lemma closed_under_other key (w : option value) o :
  key ∉ directive_options → has_key "$options" o = false →
  closed_under (λ d, d_own d !! key = w ∧ d_proto d = ProtoObject) o.
Proof.
  intros Hkey Ho. unfold directive_options in Hkey.
  rewrite !not_elem_of_cons in Hkey.
  destruct Hkey as (? & ? & ? & ? & ? & ? & _).
  unfold closed_under. rewrite Ho.
  split_and!; try done; intros _; intros; cbv beta in *;
    rewrite ?dict_set_own_ne, ?dict_set_proto by done; done.
Qed.

End other_options.

(** X2. Unless the scan reaches an option map with [$options], the
    directives assign the six options [nullOnError], [spawn], [shell],
    [preserveEnv], [passthrough] and [wait] and no other: of the other
    options handed to [child_process], [env] is the environment of the
    launch, which [exec] sets last, [maxBuffer] is 1048576 as at the start,
    and anything else is undefined. *)
Theorem exec_directives_assign_six_options rt this h args h' line la key :
  exec rt this h args = (h', inr (line, la)) →
  Forall (λ v, no_override "$options" h v = true) (scanned args) →
  key ∉ directive_options →
  rq_option h' (launch_request la) key =
    if decide (key = "env") then HandedEnv (rq_env (launch_request la))
    else if decide (key = "maxBuffer") then HandedValue (VNum (NInt 1048576 I))
    else HandedValue VUndefined.
Proof.
  intros (st & rq & Hm & _ & ->)%exec_inv Hover Hkey.
  rewrite launch_request_dispatch. unfold rq_option.
  destruct (decide (key = "env")) as [->|Henv]; [done|].
  apply marshal_inv in Hm as [Hscan ->]. cbn [rq_options].
  rewrite dict_get_without_env by done.
  destruct (scan_from_start
              (λ d, d_own d !! key = d_own initial_options !! key
                    ∧ d_proto d = ProtoObject) h args h' st)
    as [Hown Hproto]; [done|done| |].
  { intros l Hl. destruct (no_override_objects _ _ _ _ Hover Hl) as [_ Ho].
    by apply closed_under_other. }
  unfold dict_get. rewrite Hown, Hproto. unfold initial_options. cbn [d_own].
  destruct (decide (key = "maxBuffer")) as [->|Hne]; [done|].
  by rewrite lookup_singleton_ne.
Qed.

Lemma exec_directives_assign_six_options_witness :
  ∃ h' line la,
    exec quiet hab mixed_example [VStr "pkg"; VObj 2] = (h', inr (line, la)) ∧
    rq_option h' (launch_request la) "maxBuffer"
      = HandedValue (VNum (NInt 1048576 I)) ∧
    rq_option h' (launch_request la) "cwd" = HandedValue VUndefined ∧
    rq_option h' (launch_request la) "env" = HandedEnv (Dict ∅ ProtoEnv).
Proof.
  destruct (exec quiet hab mixed_example [VStr "pkg"; VObj 2])
    as [h' [e|[line la]]] eqn:He; [vm_compute in He; discriminate|].
  exists h', line, la. split; [done|]. split_and!.
  - apply (exec_directives_assign_six_options quiet hab mixed_example
             [VStr "pkg"; VObj 2] h' line la "maxBuffer" He);
      [repeat constructor|apply (bool_decide_unpack _); by vm_compute].
  - apply (exec_directives_assign_six_options quiet hab mixed_example
             [VStr "pkg"; VObj 2] h' line la "cwd" He);
      [repeat constructor|apply (bool_decide_unpack _); by vm_compute].
  - rewrite (exec_directives_assign_six_options quiet hab mixed_example
               [VStr "pkg"; VObj 2] h' line la "env" He);
      [|repeat constructor|apply (bool_decide_unpack _); by vm_compute].
    vm_compute in He. by simplify_eq.
Defined.

(** ** The bag of [$options] *)

Section options_bag.
Implicit Types (h : gmap nat (list (string * value))) (st : scan_state).
Implicit Types (hs : gmap nat (list (string * value)) * scan_state).
Implicit Types (o : list (string * value)) (d : dict).

Lemma directive_absent key body deletes l hs :
  has_key key (heap_get hs.1 l) = false →
  (directive key body deletes l hs).2 = hs.2.
Proof. intros Hk. by rewrite directive_state, Hk. Qed.

Lemma directive_heap_other key body deletes l hs l' :
  l' ≠ l → heap_get (directive key body deletes l hs).1 l' = heap_get hs.1 l'.
Proof.
  intros Hne. destruct deletes.
  - by rewrite directive_heap_deleted, decide_False.
  - by rewrite directive_heap_kept.
Qed.

Lemma set_options_keep key x (kvs : list (string * value)) : ∀ st,
  (∀ kv, kv ∈ kvs → kv.1 = key → kv.2 = x) →
  d_own (execOptions st) !! key = Some x →
  d_own (execOptions (foldl (λ acc kv, set_option kv.1 kv.2 acc) st kvs)) !! key
  = Some x.
Proof.
  induction kvs as [|[k v] kvs IH]; intros st Hall Hst; [done|].
  cbn [foldl]. apply IH; [intros kv Hkv; apply Hall; by right|].
  unfold set_option. cbn [execOptions fst snd].
  destruct (decide (k = key)) as [->|Hne].
  - assert (v = x) as -> by (apply (Hall (key, v)); [by left|done]).
    destruct (decide (key = "__proto__")) as [->|Hp];
      [|by rewrite dict_set_own_eq].
    unfold dict_set. rewrite decide_True by done.
    destruct (d_proto (execOptions st)); cbn;
      rewrite ?lookup_insert_eq; try done; by destruct x.
  - by rewrite dict_set_own_ne.
Qed.

Lemma set_options_set key x (kvs : list (string * value)) : ∀ st,
  key ≠ "__proto__" →
  (∀ kv, kv ∈ kvs → kv.1 = key → kv.2 = x) →
  key ∈ kvs.*1 →
  d_own (execOptions (foldl (λ acc kv, set_option kv.1 kv.2 acc) st kvs)) !! key
  = Some x.
Proof.
  intros st Hp. revert st.
  induction kvs as [|[k v] kvs IH]; intros st Hall Hin;
    [by apply elem_of_nil in Hin|].
  cbn [foldl]. destruct (decide (k = key)) as [->|Hne].
  - apply set_options_keep; [intros kv Hkv; apply Hall; by right|].
    unfold set_option. cbn [execOptions fst snd].
    assert (v = x) as -> by (apply (Hall (key, v)); [by left|done]).
    by rewrite dict_set_own_eq.
  - apply IH; [intros kv Hkv; apply Hall; by right|].
    rewrite fmap_cons in Hin. apply elem_of_cons in Hin as [Hin|Hin]; [|done].
    cbn in Hin. congruence.
Qed.

Lemma scan_object_options_set l e h st key :
  has_key "$options" (heap_get h l) = true →
  get_prop "$options" (heap_get h l) = VObj e →
  e ≠ l →
  has_key "$passthrough" (heap_get h l) = false →
  has_key "$wait" (heap_get h l) = false →
  key ∈ keys (heap_get h e) → key ≠ "__proto__" →
  d_own (execOptions (scan_object l h st).2) !! key
  = Some (get_prop key (heap_get h e)).
Proof.
  intros Ho Hv Hne Hpass Hwait Hkey Hproto.
  unfold scan_object. cbn [snd with_args execOptions].
  rewrite directive_absent
    by (rewrite !directive_has_key by done; exact Hwait).
  rewrite directive_absent
    by (rewrite !directive_has_key by done; exact Hpass).
  rewrite directive_state.
  rewrite !directive_has_key, !directive_get_prop by done. cbn [fst].
  rewrite Ho, Hv. unfold take_options, enumerate.
  rewrite !directive_heap_other by done. cbn [fst].
  apply set_options_set; [done| |].
  - intros kv (k & -> & _)%list_elem_of_fmap. cbn. by intros ->.
  - apply list_elem_of_fmap.
    exists (key, get_prop key (heap_get h e)). split; [done|].
    apply list_elem_of_fmap. by exists key.
Qed.

End options_bag.

(** Strings and numbers leave the store, the options and the environment
    as they are, whatever has been collected before them. *)
Lemma scan_positional_keeps args : ∀ h st,
  Forall (λ v, positional v = true) (scanned args) →
  ∃ st', scan args h st = (h, inr st') ∧
         execOptions st' = execOptions st ∧
         commandEnv st' = commandEnv st.
Proof.
  induction args as [|v args IH]; intros h st Hpos; [by eauto|].
  destruct (truthy v) eqn:Hv; [|rewrite scan_cons_falsy by done; by eauto].
  cbn [scanned] in Hpos. rewrite Hv in Hpos.
  apply Forall_cons in Hpos as [Hp Hpos].
  destruct (positional_cases v Hv Hp) as [[s ->]|[n ->]].
  - rewrite scan_cons_string by done.
    destruct (truthy (command st));
      [destruct (IH h (push_args [VStr s] st) Hpos) as (st' & -> & Ho & He)
      |destruct (IH h (with_command (VStr s) st) Hpos) as (st' & -> & Ho & He)];
      by eauto.
  - rewrite scan_cons_number by done.
    destruct (IH h (push_args [VStr (number_to_string n)] st) Hpos)
      as (st' & -> & Ho & He). by eauto.
Qed.

(** X3. Every key of the object given as [$options], but [env], becomes
    an option of the launch with the value it has there, also under the name
    of an option that a directive of the same option map has assigned before
    ([$spawn], [$shell], [$nullOnError], [$preserveEnv]); an [env] given
    there is lost, for [exec] sets the option [env] to its own environment
    afterwards.  The option map is reached, has neither [$passthrough] nor
    [$wait], whose blocks come after that of [$options], is followed by
    strings and numbers only, and its [$options] object is not itself one of
    the option maps. *)
Theorem exec_options_bag_wins rt this h pre l e post key h' line la :
  Forall (λ v, scannable v = true) pre →
  has_key "$options" (heap_get h l) = true →
  get_prop "$options" (heap_get h l) = VObj e →
  e ∉ objects_of (pre ++ [VObj l]) →
  has_key "$passthrough" (heap_get h l) = false →
  has_key "$wait" (heap_get h l) = false →
  Forall (λ v, positional v = true) (scanned post) →
  key ∈ keys (heap_get h e) → key ≠ "__proto__" →
  exec rt this h (pre ++ VObj l :: post) = (h', inr (line, la)) →
  rq_option h' (launch_request la) key =
    if decide (key = "env") then HandedEnv (rq_env (launch_request la))
    else HandedValue (get_prop key (heap_get h e)).
Proof.
  intros Hpre Ho Hv He Hpass Hwait Hpost Hkey Hproto
    (st & rq & Hm & _ & ->)%exec_inv.
  rewrite launch_request_dispatch. unfold rq_option.
  destruct (decide (key = "env")) as [->|Henv]; [done|]. f_equal.
  apply marshal_inv in Hm as [Hscan ->]. cbn [rq_options].
  rewrite dict_get_without_env by done.
  unfold objects_of in He. rewrite bind_app, not_elem_of_app in He.
  destruct He as [Hepre Hel]. cbn in Hel.
  apply not_elem_of_cons in Hel as [Hel _].
  destruct (scan_app pre (VObj l :: post) h initial_state Hpre)
    as (h1 & st1 & Hpre1 & Hcont).
  rewrite Hcont, scan_cons_object in Hscan.
  pose proof (scan_heap_frame pre h initial_state e Hepre) as Hesame.
  pose proof (scan_heap_cases pre h initial_state l) as Hlcases.
  pose proof (shrunk_scan pre h initial_state) as Hshr.
  rewrite Hpre1 in Hesame, Hlcases, Hshr. cbn [fst] in *.
  assert (has_key "$options" (heap_get h1 l) = true
          ∧ get_prop "$options" (heap_get h1 l) = VObj e) as [Ho1 Hv1].
  { destruct Hlcases as [->| ->]; [done|].
    rewrite get_prop_strip by apply options_not_deleted. split; [|done].
    apply has_key_true, strip_directives_keys. split.
    - apply options_not_deleted.
    - by apply has_key_true. }
  assert (has_key "$passthrough" (heap_get h1 l) = false) as Hpass1.
  { destruct (has_key "$passthrough" (heap_get h1 l)) eqn:Hk; [|done].
    apply Hshr in Hk. congruence. }
  assert (has_key "$wait" (heap_get h1 l) = false) as Hwait1.
  { destruct (has_key "$wait" (heap_get h1 l)) eqn:Hk; [|done].
    apply Hshr in Hk. congruence. }
  destruct (scan_positional_keeps post (scan_object l h1 st1).1
              (scan_object l h1 st1).2 Hpost) as (st' & Hscan' & Hopts & _).
  rewrite Hscan' in Hscan. injection Hscan as _ <-. rewrite Hopts.
  apply dict_get_own. rewrite <- Hesame.
  apply scan_object_options_set; try done. by rewrite Hesame.
Qed.

Lemma exec_options_bag_wins_witness :
  (∃ h' line la,
     exec quiet hab bag_example ([VStr "pkg"] ++ VObj 0 :: [VStr "x"])
       = (h', inr (line, la)) ∧
     rq_option h' (launch_request la) "spawn" = HandedValue (VBool true) ∧
     strategy_of la = SpawnStrategy) ∧
  (∃ h' line la,
     exec quiet hab bag_env_example ([VStr "pkg"] ++ VObj 0 :: [VStr "x"])
       = (h', inr (line, la)) ∧
     rq_option h' (launch_request la) "cwd" = HandedValue (VStr "/srv") ∧
     rq_option h' (launch_request la) "env" = HandedEnv (Dict ∅ ProtoEnv)).
Proof.
  split.
  - destruct (exec quiet hab bag_example ([VStr "pkg"] ++ VObj 0 :: [VStr "x"]))
      as [h' [e|[line la]]] eqn:He; [vm_compute in He; discriminate|].
    exists h', line, la. split; [done|]. split.
    + apply (exec_options_bag_wins quiet hab bag_example [VStr "pkg"] 0 1
               [VStr "x"] "spawn" h' line la);
        [repeat constructor|reflexivity|reflexivity
        |apply (bool_decide_unpack _); by vm_compute
        |reflexivity|reflexivity|repeat constructor
        |apply (bool_decide_unpack _); by vm_compute|done|exact He].
    + vm_compute in He. by injection He as <- <- <-.
  - destruct (exec quiet hab bag_env_example
                ([VStr "pkg"] ++ VObj 0 :: [VStr "x"]))
      as [h' [e|[line la]]] eqn:He; [vm_compute in He; discriminate|].
    exists h', line, la. split; [done|]. split.
    + apply (exec_options_bag_wins quiet hab bag_env_example [VStr "pkg"] 0 1
               [VStr "x"] "cwd" h' line la);
        [repeat constructor|reflexivity|reflexivity
        |apply (bool_decide_unpack _); by vm_compute
        |reflexivity|reflexivity|repeat constructor
        |apply (bool_decide_unpack _); by vm_compute|done|exact He].
    + rewrite (exec_options_bag_wins quiet hab bag_env_example [VStr "pkg"] 0 1
                 [VStr "x"] "env" h' line la);
        [|repeat constructor|reflexivity|reflexivity
         |apply (bool_decide_unpack _); by vm_compute
         |reflexivity|reflexivity|repeat constructor
         |apply (bool_decide_unpack _); by vm_compute|done|exact He].
      vm_compute in He. by simplify_eq.
Defined.

(** ** The environment of the launch *)

Section environment.
Implicit Types (h : gmap nat (list (string * value))) (st : scan_state).
Implicit Types (hs : gmap nat (list (string * value)) * scan_state).
Implicit Types (o : list (string * value)) (d : dict) (P : dict → Prop).

Lemma set_options_env (kvs : list (string * value)) : ∀ st,
  commandEnv (foldl (λ acc kv, set_option kv.1 kv.2 acc) st kvs) = commandEnv st.
Proof. induction kvs as [|kv kvs IH]; intros st; [done|]. cbn. by rewrite IH. Qed.

Lemma set_envs_inv P (kvs : list (string * value)) : ∀ st,
  (∀ k v d, P d → P (dict_set k v d)) →
  P (commandEnv st) →
  P (commandEnv (foldl (λ acc kv, set_env kv.1 kv.2 acc) st kvs)).
Proof.
  induction kvs as [|kv kvs IH]; intros st Hset HP; [done|].
  cbn. apply IH; [done|]. cbn. by apply Hset.
Qed.

Lemma scan_object_env_inv P l h st :
  (∀ k v d, P d → P (dict_set k v d)) →
  P (commandEnv st) → P (commandEnv (scan_object l h st).2).
Proof.
  intros Hset HP. unfold scan_object. cbn [snd with_args commandEnv].
  repeat (apply (directive_keeps _ _ _ (λ st, P (commandEnv st)));
    [intros v h1 st1 H1;
     first [ exact H1
           | unfold take_options; by rewrite set_options_env
           | unfold take_passthrough; by destruct (truthy v)
           | unfold take_env; by apply set_envs_inv ] |]).
  done.
Qed.

Lemma scan_env_inv P args : ∀ h st h' st',
  (∀ k v d, P d → P (dict_set k v d)) →
  scan args h st = (h', inr st') →
  P (commandEnv st) → P (commandEnv st').
Proof.
  induction args as [|v args IH]; intros h st h' st' Hset Hscan HP;
    [cbn in Hscan; by simplify_eq|].
  destruct (truthy v) eqn:Hv;
    [|rewrite scan_cons_falsy in Hscan by done; by simplify_eq].
  destruct (scannable v) eqn:Hsc;
    [|by rewrite scan_cons_unsupported in Hscan].
  destruct (scannable_cases v Hsc) as [(s & -> & _)|[(n & -> & _)|(l & ->)]].
  - rewrite scan_cons_string in Hscan by done.
    destruct (truthy (command st)); by eapply IH.
  - rewrite scan_cons_number in Hscan by done. by eapply IH.
  - rewrite scan_cons_object in Hscan. eapply IH; [done..|].
    by apply scan_object_env_inv.
Qed.

(** No assignment makes [process.env] the prototype. *)
Lemma dict_set_not_env k v d :
  d_proto d ≠ ProtoEnv → d_proto (dict_set k v d) ≠ ProtoEnv.
Proof.
  intros Hd. unfold dict_set.
  destruct (decide (k = "__proto__")); [|by cbn].
  destruct (d_proto d) eqn:Hp; destruct v; cbn; congruence.
Qed.

Lemma scan_object_sets_preserveEnv l h st :
  has_key "$preserveEnv" (heap_get h l) = true →
  has_key "$options" (heap_get h l) = false →
  d_own (execOptions (scan_object l h st).2) !! "preserveEnv"
  = Some (get_prop "$preserveEnv" (heap_get h l)).
Proof.
  intros Hk Ho. unfold scan_object. cbn [snd with_args execOptions].
  set (v := get_prop "$preserveEnv" (heap_get h l)).
  do 3 (apply (directive_options_inv (λ d, d_own d !! "preserveEnv" = Some v));
    [rewrite ?directive_has_key by done; cbn [fst]; intros Hk' HP;
     first [ by rewrite Ho in Hk'
           | rewrite take_passthrough_options; destruct (truthy _);
             by rewrite ?dict_set_own_ne
           | unfold take_wait, set_option; cbn [execOptions];
             by rewrite dict_set_own_ne ] |]).
  rewrite directive_state.
  rewrite !directive_has_key, !directive_get_prop by done. cbn [fst].
  rewrite Hk. unfold take_preserveEnv, set_option. cbn [execOptions].
  by rewrite dict_set_own_eq.
Qed.

Lemma closed_under_preserveEnv v o :
  has_key "$preserveEnv" o = false → has_key "$options" o = false →
  closed_under (λ d, d_own d !! "preserveEnv" = Some v) o.
Proof.
  intros Hs Ho. unfold closed_under. rewrite Hs, Ho.
  split_and!; try done; intros _; intros; cbv beta in *;
    rewrite ?dict_set_own_ne by done; done.
Qed.

Lemma closed_under_no_preserveEnv o :
  has_key "$preserveEnv" o = false → has_key "$options" o = false →
  closed_under (λ d, d_own d !! "preserveEnv" = None ∧ d_proto d = ProtoObject) o.
Proof.
  intros Hs Ho. unfold closed_under. rewrite Hs, Ho.
  split_and!; try done; intros _; intros; cbv beta in *;
    rewrite ?dict_set_own_ne, ?dict_set_proto by done; done.
Qed.

Lemma is_false_false v : is_false v = false ↔ v ≠ VBool false.
Proof. destruct v as [| |[|]| | | | | |]; cbn; split; congruence. Qed.

End environment.

(** X4. The environment handed to [child_process] inherits [process.env]
    unless the option [preserveEnv] is exactly [false]: it does when no
    option map reached has [$preserveEnv] or [$options], and when an option
    map sets [$preserveEnv] (with no [$options] in it and nothing reached
    later that has either) it does for every value but the boolean [false],
    so for [0], [null] or the empty string too. *)
Theorem exec_env_inherits_unless_false rt this h args h' line la :
  exec rt this h args = (h', inr (line, la)) →
  (Forall (λ v, no_override "$preserveEnv" h v = true) (scanned args) →
     d_proto (rq_env (launch_request la)) = ProtoEnv) ∧
  (∀ pre l post,
     args = pre ++ VObj l :: post →
     Forall (λ v, scannable v = true) pre →
     l ∉ objects_of pre →
     has_key "$preserveEnv" (heap_get h l) = true →
     has_key "$options" (heap_get h l) = false →
     Forall (λ v, no_override "$preserveEnv" h v = true) (scanned post) →
     (d_proto (rq_env (launch_request la)) = ProtoEnv ↔
      get_prop "$preserveEnv" (heap_get h l) ≠ VBool false)).
Proof.
  intros (st & rq & Hm & _ & ->)%exec_inv.
  rewrite launch_request_dispatch.
  apply marshal_inv in Hm as [Hscan ->]. cbn [rq_env]. unfold prepare_env.
  split.
  - intros Hover.
    destruct (scan_from_start
                (λ d, d_own d !! "preserveEnv" = None ∧ d_proto d = ProtoObject)
                h args h' st) as [Hnone Hproto]; [done|done| |].
    { intros l' Hl'.
      destruct (no_override_objects _ _ _ _ Hover Hl') as [H1 H2].
      by apply closed_under_no_preserveEnv. }
    by rewrite (dict_get_none h' _ _ Hnone Hproto).
  - intros pre l post -> Hpre Hl Hk Ho Hover.
    assert (dict_get h' "preserveEnv" (execOptions st)
            = get_prop "$preserveEnv" (heap_get h l)) as ->.
    { apply dict_get_own.
      apply (scan_after_object
               (λ d, d_own d !! "preserveEnv"
                     = Some (get_prop "$preserveEnv" (heap_get h l)))
               h pre l post h' st); [done..| |].
      + intros h1 st1 Hsame. rewrite <- Hsame.
        apply scan_object_sets_preserveEnv; by rewrite Hsame.
      + intros l' Hl'.
        destruct (no_override_objects _ _ _ _ Hover Hl') as [H1 H2].
        by apply closed_under_preserveEnv. }
    rewrite <- is_false_false.
    destruct (is_false (get_prop "$preserveEnv" (heap_get h l))); cbn [negb].
    + split; [|done]. intros Henv. exfalso. revert Henv.
      apply (scan_env_inv (λ d, d_proto d ≠ ProtoEnv) _ _ _ _ _
               dict_set_not_env Hscan). done.
    + done.
Qed.

Lemma exec_env_inherits_unless_false_witness :
  ∃ h' line la,
    exec quiet hab env_example [VStr "pkg"; VObj 0] = (h', inr (line, la)) ∧
    d_proto (rq_env (launch_request la)) ≠ ProtoEnv.
Proof.
  destruct (exec quiet hab env_example [VStr "pkg"; VObj 0])
    as [h' [e|[line la]]] eqn:He; [vm_compute in He; discriminate|].
  exists h', line, la. split; [done|].
  destruct (exec_env_inherits_unless_false quiet hab env_example
              [VStr "pkg"; VObj 0] h' line la He) as [_ Hset].
  rewrite (Hset [VStr "pkg"] 0 []);
    [by intros []|reflexivity|repeat constructor
    |apply (bool_decide_unpack _); by vm_compute
    |reflexivity|reflexivity|constructor].
Defined.

Section env_overlay.
Implicit Types (h : gmap nat (list (string * value))) (st : scan_state).
Implicit Types (o : list (string * value)) (d : dict).

Lemma scan_object_env_kept l h st :
  has_key "$env" (heap_get h l) = false →
  commandEnv (scan_object l h st).2 = commandEnv st.
Proof.
  intros Hk. unfold scan_object. cbn [snd with_args commandEnv].
  do 4 (apply (directive_keeps _ _ _ (λ st', commandEnv st' = commandEnv st));
    [intros v h1 st1 H1;
     first [ exact H1
           | unfold take_options; by rewrite set_options_env
           | unfold take_passthrough; by destruct (truthy v) ] |]).
  rewrite directive_absent
    by (rewrite !directive_has_key by done; exact Hk).
  do 3 (apply (directive_keeps _ _ _ (λ st', commandEnv st' = commandEnv st));
    [intros v h1 st1 H1; exact H1|]).
  done.
Qed.

Lemma scan_env_kept h0 post : ∀ h st h' st',
  shrunk h0 h →
  Forall (λ v, lacks "$env" h0 v = true) (scanned post) →
  scan post h st = (h', inr st') →
  commandEnv st' = commandEnv st.
Proof.
  induction post as [|v post IH]; intros h st h' st' Hs Hlack Hscan;
    [cbn in Hscan; by simplify_eq|].
  destruct (truthy v) eqn:Hv;
    [|rewrite scan_cons_falsy in Hscan by done; by simplify_eq].
  cbn [scanned] in Hlack. rewrite Hv in Hlack.
  apply Forall_cons in Hlack as [Hl Hlack].
  destruct (scannable v) eqn:Hsc;
    [|by rewrite scan_cons_unsupported in Hscan].
  destruct (scannable_cases v Hsc) as [(s & -> & _)|[(n & -> & _)|(l & ->)]].
  - rewrite scan_cons_string in Hscan by done.
    destruct (truthy (command st)); by rewrite (IH _ _ _ _ Hs Hlack Hscan).
  - rewrite scan_cons_number in Hscan by done.
    by rewrite (IH _ _ _ _ Hs Hlack Hscan).
  - rewrite scan_cons_object in Hscan.
    rewrite (IH _ _ _ _ (shrunk_scan_object _ _ l st Hs) Hlack Hscan).
    apply scan_object_env_kept. cbn in Hl. apply negb_true_iff in Hl.
    destruct (has_key "$env" (heap_get h l)) eqn:Hk; [|done].
    apply Hs in Hk. congruence.
Qed.

Lemma set_envs_keep key x (kvs : list (string * value)) : ∀ st,
  key ≠ "__proto__" →
  (∀ kv, kv ∈ kvs → kv.1 = key → kv.2 = x) →
  d_own (commandEnv st) !! key = Some x →
  d_own (commandEnv (foldl (λ acc kv, set_env kv.1 kv.2 acc) st kvs)) !! key
  = Some x.
Proof.
  intros st Hp. revert st.
  induction kvs as [|[k v] kvs IH]; intros st Hall Hst; [done|].
  cbn [foldl]. apply IH; [intros kv Hkv; apply Hall; by right|].
  unfold set_env. cbn [commandEnv fst snd].
  destruct (decide (k = key)) as [->|Hne].
  - assert (v = x) as -> by (apply (Hall (key, v)); [by left|done]).
    by rewrite dict_set_own_eq.
  - by rewrite dict_set_own_ne.
Qed.

Lemma set_envs_set key x (kvs : list (string * value)) : ∀ st,
  key ≠ "__proto__" →
  (∀ kv, kv ∈ kvs → kv.1 = key → kv.2 = x) →
  key ∈ kvs.*1 →
  d_own (commandEnv (foldl (λ acc kv, set_env kv.1 kv.2 acc) st kvs)) !! key
  = Some x.
Proof.
  intros st Hp. revert st.
  induction kvs as [|[k v] kvs IH]; intros st Hall Hin;
    [by apply elem_of_nil in Hin|].
  cbn [foldl]. destruct (decide (k = key)) as [->|Hne].
  - apply set_envs_keep; [done|intros kv Hkv; apply Hall; by right|].
    unfold set_env. cbn [commandEnv fst snd].
    assert (v = x) as -> by (apply (Hall (key, v)); [by left|done]).
    by rewrite dict_set_own_eq.
  - apply IH; [intros kv Hkv; apply Hall; by right|].
    rewrite fmap_cons in Hin. apply elem_of_cons in Hin as [Hin|Hin]; [|done].
    cbn in Hin. congruence.
Qed.

Lemma scan_object_env_set l e h st key :
  has_key "$env" (heap_get h l) = true →
  get_prop "$env" (heap_get h l) = VObj e →
  e ≠ l →
  key ∈ keys (heap_get h e) → key ≠ "__proto__" →
  d_own (commandEnv (scan_object l h st).2) !! key
  = Some (get_prop key (heap_get h e)).
Proof.
  intros Hk Hv Hne Hkey Hproto.
  unfold scan_object. cbn [snd with_args commandEnv].
  set (x := get_prop key (heap_get h e)).
  do 4 (apply (directive_keeps _ _ _ (λ st', d_own (commandEnv st') !! key = Some x));
    [intros v h1 st1 H1;
     first [ exact H1
           | unfold take_options; by rewrite set_options_env
           | unfold take_passthrough; by destruct (truthy v) ] |]).
  rewrite directive_state.
  rewrite !directive_has_key, !directive_get_prop by done. cbn [fst].
  rewrite Hk, Hv. unfold take_env, enumerate.
  rewrite !directive_heap_other by done. cbn [fst].
  apply set_envs_set; [done| |].
  - intros kv (k & -> & _)%list_elem_of_fmap. cbn. by intros ->.
  - apply list_elem_of_fmap.
    exists (key, get_prop key (heap_get h e)). split; [done|].
    apply list_elem_of_fmap. by exists key.
Qed.

End env_overlay.

(** X5. Every key of the object given as [$env] is a variable of the
    environment handed to [child_process], with the value it has in that
    object: the option map is reached for the first time, its [$env] object
    is not itself one of the option maps, and no option map reached later
    has [$env]. *)
Theorem exec_env_overlay rt this h pre l e post key h' line la :
  Forall (λ v, scannable v = true) pre →
  l ∉ objects_of pre →
  has_key "$env" (heap_get h l) = true →
  get_prop "$env" (heap_get h l) = VObj e →
  e ∉ objects_of (pre ++ [VObj l]) →
  Forall (λ v, lacks "$env" h v = true) (scanned post) →
  key ∈ keys (heap_get h e) → key ≠ "__proto__" →
  exec rt this h (pre ++ VObj l :: post) = (h', inr (line, la)) →
  d_own (rq_env (launch_request la)) !! key = Some (get_prop key (heap_get h e)).
Proof.
  intros Hpre Hl Hk Hv He Hpost Hkey Hproto (st & rq & Hm & _ & ->)%exec_inv.
  rewrite launch_request_dispatch.
  apply marshal_inv in Hm as [Hscan ->]. cbn [rq_env].
  assert (d_own (prepare_env h' st) = d_own (commandEnv st)) as ->
    by (unfold prepare_env; by destruct (negb _)).
  unfold objects_of in He. rewrite bind_app, not_elem_of_app in He.
  destruct He as [Hepre Hel]. cbn in Hel.
  apply not_elem_of_cons in Hel as [Hel _].
  destruct (scan_app pre (VObj l :: post) h initial_state Hpre)
    as (h1 & st1 & Hpre1 & Hcont).
  rewrite Hcont, scan_cons_object in Hscan.
  pose proof (scan_heap_frame pre h initial_state e Hepre) as Hesame.
  pose proof (scan_heap_frame pre h initial_state l Hl) as Hlsame.
  pose proof (shrunk_scan pre h initial_state) as Hshr.
  rewrite Hpre1 in Hesame, Hlsame, Hshr. cbn [fst] in *.
  rewrite (scan_env_kept h post _ _ _ _
             (shrunk_scan_object _ _ l st1 Hshr) Hpost Hscan).
  rewrite <- Hesame. apply scan_object_env_set; by rewrite ?Hlsame, ?Hesame.
Qed.

Lemma exec_env_overlay_witness :
  ∃ h' line la,
    exec quiet hab env_example ([VStr "pkg"] ++ VObj 0 :: [VStr "x"])
      = (h', inr (line, la)) ∧
    d_own (rq_env (launch_request la)) !! "HAB_ORIGIN" = Some (VStr "acme").
Proof.
  destruct (exec quiet hab env_example ([VStr "pkg"] ++ VObj 0 :: [VStr "x"]))
    as [h' [e|[line la]]] eqn:He; [vm_compute in He; discriminate|].
  exists h', line, la. split; [done|].
  apply (exec_env_overlay quiet hab env_example [VStr "pkg"] 0 1 [VStr "x"]
           "HAB_ORIGIN" h' line la);
    [repeat constructor|apply (bool_decide_unpack _); by vm_compute
    |reflexivity|reflexivity|apply (bool_decide_unpack _); by vm_compute
    |repeat constructor|apply (bool_decide_unpack _); by vm_compute|done
    |exact He].
Defined.

(** ** The debug line and the shell command line *)

Section joining.
Implicit Types (h : gmap nat (list (string * value))) (vs pre post : list value).
Implicit Types (a b r : string).

Lemma string_app_assoc a b r : (a +:+ b) +:+ r = a +:+ b +:+ r.
Proof.
  induction a as [|c a IH]; [done|].
  rewrite !append_cons. by rewrite IH.
Qed.

Lemma join_space_cons rt h v w vs :
  join_space rt h (v :: w :: vs) =
  s ← join_item rt h v; r ← join_space rt h (w :: vs); Some (s +:+ " " +:+ r).
Proof. done. Qed.

Lemma join_space_symbol rt h vs id :
  VSymbol id ∈ vs → join_space rt h vs = None.
Proof.
  induction vs as [|v vs IH]; intros Hin; [by apply elem_of_nil in Hin|].
  apply elem_of_cons in Hin as [<-|Hin].
  - destruct vs; [done|]. by rewrite join_space_cons.
  - destruct vs as [|w vs]; [by apply elem_of_nil in Hin|].
    rewrite join_space_cons, (IH Hin). by destruct (join_item rt h v).
Qed.

(** One argument with a space in it is joined like two arguments. *)
Lemma join_space_split rt h pre a b post :
  join_space rt h (pre ++ VStr (a +:+ " " +:+ b) :: post) =
  join_space rt h (pre ++ VStr a :: VStr b :: post).
Proof.
  induction pre as [|v pre IH].
  - cbn [app]. rewrite (join_space_cons _ _ (VStr a)).
    destruct post as [|w post]; [done|].
    rewrite !join_space_cons. cbn [join_item string_of to_string mbind option_bind].
    destruct (join_space rt h (w :: post)) as [r|]; [|done]. cbn.
    by rewrite string_app_assoc.
  - cbn [app]. destruct pre as [|w pre]; cbn [app] in *.
    + by rewrite !join_space_cons, IH.
    + by rewrite !join_space_cons, IH.
Qed.

End joining.

(** X6. Nothing is quoted in the line that is logged and that the shell
    strategy runs: after a command, an argument made of two non-empty words
    with a space between them gives the same line, the same strategy and,
    with the shell strategy, the same command line as the two words given as
    two arguments, although the argument vectors differ. *)
Theorem exec_line_splits_on_spaces rt this h pre a b h' line la :
  Forall (λ v, scannable v = true) pre →
  truthy (first_string pre) = true →
  a ≠ "" → b ≠ "" →
  exec rt this h (pre ++ [VStr (a +:+ " " +:+ b)]) = (h', inr (line, la)) →
  ∃ la',
    exec rt this h (pre ++ [VStr a; VStr b]) = (h', inr (line, la')) ∧
    strategy_of la' = strategy_of la ∧
    (∀ shell rq, la = ExecShell shell rq → ∃ rq', la' = ExecShell shell rq') ∧
    length (rq_args (launch_request la')) = S (length (rq_args (launch_request la))).
Proof.
  intros Hpre Hcmd Ha Hb Hexec.
  assert (∀ s, s ≠ "" → truthy (VStr s) = true) as Htruthy.
  { intros s Hs. cbn. by apply negb_true_iff, String.eqb_neq. }
  assert (a +:+ " " +:+ b ≠ "") as Hab by (by destruct a).
  destruct (scan_app pre [VStr (a +:+ " " +:+ b)] h initial_state Hpre)
    as (h1 & st1 & Hpre1 & Hone).
  destruct (scan_app pre [VStr a; VStr b] h initial_state Hpre)
    as (h2 & st2 & Hpre2 & Htwo).
  rewrite Hpre1 in Hpre2. injection Hpre2 as <- <-.
  pose proof Hpre1 as [Hc _]%(scan_spec h); [|done|by right].
  cbn in Hc.
  assert (scanned pre = pre) as Hsp.
  { rewrite <- (app_nil_r pre) at 1. rewrite scanned_app by done.
    apply app_nil_r. }
  rewrite Hsp in Hc. rewrite <- Hc in Hcmd.
  rewrite scan_cons_string, Hcmd in Hone by auto.
  rewrite !scan_cons_string in Htwo by auto. rewrite Hcmd in Htwo.
  cbn [push_args command scan] in Hone, Htwo. rewrite Hcmd in Htwo.
  unfold exec, marshal in Hexec |- *. rewrite Hone in Hexec. rewrite Htwo.
  cbn [rq_args] in Hexec |- *.
  unfold prefix_command, prepare_env, push_args in Hexec |- *.
  cbn [command commandArgs commandEnv execOptions] in Hexec |- *.
  rewrite Hcmd in Hexec |- *.
  rewrite <- !app_assoc. cbn [app].
  rewrite !app_comm_cons, <- join_space_split.
  rewrite !app_comm_cons in Hexec.
  destruct (join_space rt h1 _) as [line'|] eqn:Hjoin; [|done].
  injection Hexec as <- <- <-. eexists. split; [reflexivity|].
  unfold dispatch. cbn [rq_options rq_args launch_request].
  repeat destruct (truthy _); cbn [strategy_of launch_request rq_args];
    rewrite ?length_app; cbn [length]; rewrite ?length_app; cbn [length];
    split_and!; try done; try lia; intros ?? [= <- <-]; by eexists.
Qed.

Lemma exec_line_splits_on_spaces_witness :
  ∃ h0 rq rq',
    exec quiet hab shell_example
      ([VObj 0; VStr "pkg"] ++ [VStr ("install" +:+ " " +:+ "core/redis")])
      = (h0, inr ("pkg install core/redis", ExecShell "hab pkg install core/redis" rq)) ∧
    exec quiet hab shell_example ([VObj 0; VStr "pkg"] ++ [VStr "install"; VStr "core/redis"])
      = (h0, inr ("pkg install core/redis", ExecShell "hab pkg install core/redis" rq')).
Proof.
  assert (∃ h0 rq, exec quiet hab shell_example
            ([VObj 0; VStr "pkg"] ++ [VStr ("install" +:+ " " +:+ "core/redis")])
          = (h0, inr ("pkg install core/redis",
                      ExecShell "hab pkg install core/redis" rq)))
    as (h0 & rq & He) by (eexists _, _; reflexivity).
  destruct (exec_line_splits_on_spaces quiet hab shell_example [VObj 0; VStr "pkg"]
              "install" "core/redis" _ _ _ ltac:(repeat constructor)
              eq_refl ltac:(done) ltac:(done) He)
    as (la' & He' & _ & Hshell & _).
  destruct (Hshell _ _ eq_refl) as [rq' ->].
  exists h0, rq, rq'. split; [exact He|exact He'].
Defined.

(** X7. A symbol in the argument vector, as the value of a flag for one,
    makes the call throw a [TypeError] when the debug line is joined, before
    anything is launched. *)
Theorem exec_symbol_throws rt this h args h' st rq id :
  marshal this h args = (h', inr (st, rq)) →
  VSymbol id ∈ rq_args rq →
  exec rt this h args = (h', inl TypeError).
Proof.
  intros Hm Hin. unfold exec. rewrite Hm.
  by rewrite (join_space_symbol rt h' _ id Hin).
Qed.

Lemma exec_symbol_throws_witness :
  ∃ h', exec quiet hab symbol_example [VStr "pkg"; VObj 0] = (h', inl TypeError).
Proof.
  destruct (marshal hab symbol_example [VStr "pkg"; VObj 0])
    as [h' [e|[st rq]]] eqn:Hm; [vm_compute in Hm; discriminate|].
  exists h'.
  apply (exec_symbol_throws quiet hab symbol_example _ h' st rq 0 Hm).
  vm_compute in Hm. injection Hm as _ _ <-.
  cbn [rq_args]. rewrite !elem_of_cons. auto.
Defined.

(** ** More on the child process *)

Section child_more.
Implicit Types (c : child) (es : list event) (cap : capture).

Lemma child_event_stdin e c :
  ch_stdin (child_event e c) = ch_stdin c ∧
  ch_stdin_ended (child_event e c) = ch_stdin_ended c.
Proof. by destruct e. Qed.

Lemma child_events_stdin es : ∀ c,
  ch_stdin (child_events es c) = ch_stdin c ∧
  ch_stdin_ended (child_events es c) = ch_stdin_ended c.
Proof.
  unfold child_events. induction es as [|e es IH]; intros c; [done|].
  cbn [foldl]. destruct (IH (child_event e c)) as [-> ->].
  apply child_event_stdin.
Qed.

Lemma captureOutput_stdin input c :
  ch_stdin (captureOutput input c).1 =
    ch_stdin c ++ (if truthy input then [input] else []) ∧
  ch_stdin_ended (captureOutput input c).1 = truthy input || ch_stdin_ended c.
Proof.
  unfold captureOutput.
  destruct (ch_capturePromise c), (truthy input); cbn;
    by rewrite ?app_nil_r.
Qed.

End child_more.

(** X8. The memory of [captureOutput] does not cover the standard input:
    every call with a truthy input writes it and ends the input, the second
    call too, while a call with [null] or the empty string as input writes
    nothing and leaves the input open; what the process emits changes
    nothing to it. *)
Theorem captureOutput_writes_every_input before between input1 input2 :
  let first := captureOutput input1 (child_events before spawned) in
  let second := captureOutput input2 (child_events between first.1) in
  ch_stdin second.1 =
    (if truthy input1 then [input1] else []) ++
    (if truthy input2 then [input2] else []) ∧
  ch_stdin_ended second.1 = truthy input1 || truthy input2.
Proof.
  intros first second. subst first second.
  destruct (captureOutput_stdin input2
              (child_events between
                 (captureOutput input1 (child_events before spawned)).1))
    as [-> ->].
  destruct (child_events_stdin between
              (captureOutput input1 (child_events before spawned)).1)
    as [-> ->].
  destruct (captureOutput_stdin input1 (child_events before spawned))
    as [-> ->].
  destruct (child_events_stdin before spawned) as [-> ->]. cbn.
  by destruct (truthy input1), (truthy input2).
Qed.

Section capture_result.
Implicit Types (c : child) (es : list event) (cap : capture).

Lemma string_app_nil_r (s : string) : s +:+ "" = s.
Proof. induction s as [|a s IH]; [done|]. by rewrite append_cons, IH. Qed.

Lemma child_events_captures es : ∀ c,
  ch_captures (child_events es c) = capture_events es <$> ch_captures c.
Proof.
  unfold child_events, capture_events.
  induction es as [|e es IH]; intros c; cbn [foldl].
  - by rewrite list_fmap_id.
  - rewrite IH. destruct e; cbn; rewrite <- list_fmap_compose;
      by apply list_fmap_ext.
Qed.

Lemma capture_events_app es1 es2 cap :
  capture_events (es1 ++ es2) cap = capture_events es2 (capture_events es1 cap).
Proof. unfold capture_events. by rewrite foldl_app. Qed.

Lemma capture_events_data chunks : ∀ cap,
  capture_events (data_of chunks) cap =
  Capture (cap_output cap +:+ concat_chunks chunks) (cap_promise cap).
Proof.
  unfold capture_events, data_of.
  induction chunks as [|chunk chunks IH]; intros [out p]; cbn.
  - by rewrite string_app_nil_r.
  - rewrite IH. cbn. by rewrite string_app_assoc.
Qed.

Lemma capture_events_settled es : ∀ cap,
  cap_promise cap ≠ Pending →
  cap_promise (capture_events es cap) = cap_promise cap.
Proof.
  unfold capture_events.
  induction es as [|e es IH]; intros cap Hp; [done|].
  cbn [foldl]. destruct e as [chunk|code].
  - rewrite IH; [done|]. done.
  - assert (capture_event (Exit code) cap = cap) as ->; [|by apply IH].
    cbn. unfold on_exit. by destruct (cap_promise cap).
Qed.

End capture_result.

(** X9. The promise of [captureOutput] settles at the first exit of the
    process after the call, with the text of the data that came between the
    call and that exit: resolved with it when the exit code is 0, rejected
    with it and the code otherwise (a [null] code, for a signal, included).
    What the process emitted before the call is not in it, and nothing that
    comes after the exit changes it. *)
Theorem captureOutput_settles_on_exit before input chunks code later :
  let first := captureOutput input (child_events before spawned) in
  let after := child_events (data_of chunks ++ Exit code :: later) first.1 in
  cap_promise <$> (ch_captures after !! first.2) =
  Some (if exit_ok code then Resolved (VStr (concat_chunks chunks))
        else Rejected (RejectCapture (concat_chunks chunks) code)).
Proof.
  intros first after. subst after first.
  destruct (child_events_shape before spawned) as [Hp0 Hl0].
  change (ch_capturePromise spawned) with (@None nat) in Hp0.
  change (length (ch_captures spawned)) with 0 in Hl0.
  destruct (captureOutput_first input _ Hp0) as (Hr1 & _ & Hc1).
  rewrite Hl0 in Hr1. apply nil_length_inv in Hl0.
  rewrite Hl0, app_nil_l in Hc1.
  rewrite child_events_captures, Hc1, Hr1. cbn [fmap list_fmap lookup list_lookup option_fmap option_map].
  rewrite capture_events_app, capture_events_data. cbn [cap_output cap_promise].
  change (Exit code :: later) with ([Exit code] ++ later).
  rewrite capture_events_app.
  rewrite capture_events_settled; cbn; by destruct (exit_ok code).
Qed.

(** X10. Nothing but an exit settles the promise: as long as the process
    only emits data after the call it stays pending, so that a call of
    [captureOutput] on a child that has exited already gives a promise that
    never settles. *)
Theorem captureOutput_pending_without_exit before input chunks :
  let first := captureOutput input (child_events before spawned) in
  let after := child_events (data_of chunks) first.1 in
  cap_promise <$> (ch_captures after !! first.2) = Some Pending.
Proof.
  intros first after. subst after first.
  destruct (child_events_shape before spawned) as [Hp0 Hl0].
  change (ch_capturePromise spawned) with (@None nat) in Hp0.
  change (length (ch_captures spawned)) with 0 in Hl0.
  destruct (captureOutput_first input _ Hp0) as (Hr1 & _ & Hc1).
  rewrite Hl0 in Hr1. apply nil_length_inv in Hl0.
  rewrite Hl0, app_nil_l in Hc1.
  rewrite child_events_captures, Hc1, Hr1. cbn [fmap list_fmap lookup list_lookup option_fmap option_map].
  by rewrite capture_events_data.
Qed.


(** X11. When a binary run by the direct or by the shell strategy ends
    without error and its outputs are delivered as strings (the option
    [encoding] does not ask for [Buffer]s), the call resolves with a string
    that has no white space at either end and that trimming leaves as it
    is. *)
Theorem capture_resolves_trimmed rt h la :
  strategy_of la ≠ SpawnStrategy →
  buffer_output rt (rq_options (launch_request la)) = false →
  pr_error (capture_result rt la) = None →
  ∃ s, settle rt h la = Some (Resolved (VStr s)) ∧ trimmed s ∧ trim s = s.
Proof.
  intros Hla Htext Herr. exists (trim (pr_stdout (capture_result rt la))).
  split; [|split; [apply trim_trimmed|apply trim_idemp]].
  destruct la as [rq p w|shell rq|rq]; [done| |];
    cbn [settle launch_request] in *; unfold capture_callback, delivered;
    by rewrite Herr, Htext.
Qed.

Lemma capture_resolves_trimmed_witness :
  ∃ rq, launch_of (exec one_service hab ∅ [VStr "svc"; VStr "status"])
          = Some (ExecFile rq) ∧
        settle one_service ∅ (ExecFile rq)
          = Some (Resolved (VStr "NAME  VERSION
core/foo  1.2.3")).
Proof.
  exists (Request "hab" [VStr "svc"; VStr "status"]
            initial_options (Dict ∅ ProtoEnv)).
  split; [reflexivity|].
  destruct (capture_resolves_trimmed one_service ∅
              (ExecFile (Request "hab" [VStr "svc"; VStr "status"]
                           initial_options (Dict ∅ ProtoEnv))))
    as (s & Hs & _ & _); [done|reflexivity|reflexivity|].
  rewrite Hs. vm_compute in Hs. by injection Hs as <-.
Defined.

(** X12. With pass-through, a chunk of output is logged as the lines of its
    trimmed text: one entry at least, also for an empty chunk, no entry with
    a line feed in it, and the entries joined by line feeds are the trimmed
    chunk; the standard error gives the same lines as error entries. *)
Theorem passthrough_logs_trimmed_lines data :
  ∃ lines,
    passthrough_stdout data = LogInfo <$> lines ∧
    passthrough_stderr data = LogError <$> lines ∧
    lines ≠ [] ∧
    Forall no_newline lines ∧
    join_newline lines = trim data.
Proof.
  exists (split_newline (trim data)). split_and!; [done|done| | |].
  - apply split_newline_nonempty.
  - apply split_newline_lines.
  - apply join_split_newline.
Qed.

(** X13. A line that has no two white-space characters side by side is one
    field, whatever single spaces it has, and a line never splits into no
    field at all. *)
Theorem split_gaps_single_field s :
  split_gaps s ≠ [] ∧ (no_gap s = true → split_gaps s = [s]).
Proof.
  split; [apply split_gaps_from_nonempty|apply split_gaps_whole].
Qed.

Lemma split_gaps_single_field_witness :
  no_gap "core/foo up 3 days" = true ∧
  split_gaps "core/foo up 3 days" = ["core/foo up 3 days"].
Proof.
  split; [reflexivity|].
  by apply (proj2 (split_gaps_single_field "core/foo up 3 days")).
Defined.

(** What [getSupervisorStatus] returns, from the arguments of the callback. *)
Lemma getSupervisorStatus_result rt this :
  let r := capture_result rt
             (ExecFile (Request (i_command this) [VStr "svc"; VStr "status"]
                          initial_options (Dict ∅ ProtoEnv))) in
  (getSupervisorStatus rt this).1 =
  match pr_error r with
  | Some _ => Unavailable
  | None => Services (status_spec (trim (pr_stdout r)))
  end.
Proof.
  intros r. unfold getSupervisorStatus. rewrite exec_status.
  cbn [launched snd fst]. unfold await_exec.
  cbn [snd fst settle rq_options]. fold r. unfold capture_callback, delivered.
  change (buffer_output rt initial_options) with false. cbv iota.
  change (dict_get ∅ "nullOnError" initial_options) with VUndefined.
  cbn [truthy]. destruct (pr_error r); [done|].
  rewrite status_rows_spec. unfold status_spec.
  by destruct (split_newline _) as [|header [|row rows]].
Qed.

(** X14. When the run succeeds, [getSupervisorStatus] returns one record
    per line of the trimmed output after the first, and a record has no own
    key but the columns of the first line: the fields of a row beyond the
    columns are dropped. *)
Theorem getSupervisorStatus_shape rt this :
  let r := capture_result rt
             (ExecFile (Request (i_command this) [VStr "svc"; VStr "status"]
                          initial_options (Dict ∅ ProtoEnv))) in
  let lines := split_newline (trim (pr_stdout r)) in
  pr_error r = None →
  ∃ rows,
    (getSupervisorStatus rt this).1 = Services rows ∧
    length rows = length lines - 1 ∧
    ∀ record key,
      record ∈ rows →
      key ∉ split_gaps (default "" (head lines)) →
      d_own record !! key = None.
Proof.
  intros r lines Herr.
  pose proof (getSupervisorStatus_result rt this) as Hres.
  cbv zeta in Hres. fold r in Hres. rewrite Herr in Hres.
  exists (status_spec (trim (pr_stdout r))). split; [done|].
  unfold status_spec. fold lines. clear Hres. clearbody lines.
  destruct lines as [|header rows].
  { split; [done|]. by intros record key ?%elem_of_nil. }
  cbn [length head default].
  rewrite length_fmap. split; [lia|].
  intros record key (row & -> & _)%list_elem_of_fmap Hkey.
  unfold underscore_object. by rewrite object_from_other.
Qed.

Lemma getSupervisorStatus_shape_witness :
  ∃ record,
    (getSupervisorStatus one_service hab).1 = Services [record] ∧
    d_own record !! "STATE" = None.
Proof.
  destruct (getSupervisorStatus_shape one_service hab) as (rows & Hrows & Hlen & Hkeys);
    [reflexivity|].
  destruct rows as [|record [|record' rows]]; try discriminate Hlen.
  exists record. split; [exact Hrows|].
  apply Hkeys; [by left|].
  apply (bool_decide_unpack _). by vm_compute.
Defined.

(** ** The version, asked once *)

Section versions_again.
Implicit Types (this : instance) (rt : runtime).

(** With a version in the cache, whatever it is, nothing runs. *)
Lemma getVersion_cached rt this :
  is_null (i_version this) = false →
  getVersion rt this =
  (this, if truthy (i_version this) then i_version this else VNull, []).
Proof. intros Hn. unfold getVersion. by rewrite Hn. Qed.

(** After [getVersion] the cache is not [null] any more. *)
Lemma getVersion_fills_cache rt this :
  is_null (i_version (getVersion rt this).1.1) = false.
Proof.
  destruct (is_null (i_version this)) eqn:Hn;
    [|by rewrite getVersion_cached].
  unfold getVersion. rewrite Hn.
  destruct (_ ≫= match_version) as [[v b]|]; done.
Qed.

Lemma getVersion_returns_cache rt this :
  (getVersion rt this).1.2 =
  if truthy (i_version (getVersion rt this).1.1)
  then i_version (getVersion rt this).1.1 else VNull.
Proof.
  unfold getVersion. destruct (is_null (i_version this)); [|done].
  destruct (_ ≫= match_version) as [[v b]|]; done.
Qed.

Lemma getVersion_again rt this :
  getVersion rt (getVersion rt this).1.1 =
  ((getVersion rt this).1.1, (getVersion rt this).1.2, []).
Proof.
  rewrite getVersion_cached by apply getVersion_fills_cache.
  by rewrite <- getVersion_returns_cache.
Qed.

Lemma getVersion_started rt this :
  (getVersion rt this).2 =
  if is_null (i_version this)
  then [ExecFile (Request (i_command this) [VStr "--version"] initial_options
                    (Dict ∅ ProtoEnv))]
  else [].
Proof.
  unfold getVersion. destruct (is_null (i_version this)); [|done].
  rewrite exec_version. cbn [launched snd].
  destruct (_ ≫= match_version) as [[v b]|]; done.
Qed.

Lemma getVersion_keeps_stored rt this :
  stored_version this → stored_version (getVersion rt this).1.1.
Proof.
  intros Hst. destruct (is_null (i_version this)) eqn:Hn;
    [|by rewrite getVersion_cached].
  unfold getVersion. rewrite Hn. unfold stored_version.
  destruct (_ ≫= match_version) as [[v b]|]; cbn; eauto.
Qed.

Lemma getVersion_null_or_string rt this :
  stored_version this →
  (getVersion rt this).1.2 = VNull ∨ ∃ v, (getVersion rt this).1.2 = VStr v.
Proof.
  intros Hst%(getVersion_keeps_stored rt). rewrite getVersion_returns_cache.
  destruct Hst as [-> |[-> |[v ->]]]; cbn; [by left|by left|].
  destruct (negb _); eauto.
Qed.

End versions_again.

(** X15. Whatever its state, an instance asks the binary for its version
    once at most: the first [getVersion] starts one process or none, and a
    second one on the instance as the first left it starts none, gives the
    same answer and leaves the instance as it is.  The answer is [null] or a
    truthy value, never the mark [false] that the cache holds for an
    unavailable version, and the command of the instance stays. *)
Theorem getVersion_asks_once rt this :
  let first := getVersion rt this in
  let second := getVersion rt first.1.1 in
  second = (first.1.1, first.1.2, []) ∧
  length (first.2 ++ second.2) ≤ 1 ∧
  (first.1.2 = VNull ∨ truthy first.1.2 = true) ∧
  i_command first.1.1 = i_command this.
Proof.
  intros first second. subst first second. split_and!.
  - apply getVersion_again.
  - rewrite getVersion_again, app_nil_r, getVersion_started.
    destruct (is_null _); cbn [length]; lia.
  - rewrite getVersion_returns_cache.
    destruct (truthy (i_version _)) eqn:Ht; [by right|by left].
  - unfold getVersion. destruct (is_null (i_version this)); [|done].
    destruct (_ ≫= match_version) as [[v b]|]; done.
Qed.

(** X16. [requireVersion] starts the processes of one [getVersion] and no
    more, also when it fails and asks for the version a second time for its
    message: the version in the message is the one that was tested.  It
    returns the instance as [getVersion] left it when the version library
    accepts the version, and throws otherwise. *)
Theorem requireVersion_asks_once satisfies rt this range :
  stored_version this →
  let first := getVersion rt this in
  requireVersion satisfies rt this range =
  (if satisfies first.1.2 range then Chained first.1.1
   else VersionError (version_message range first.1.2),
   first.1.1, first.2) ∧
  (first.1.2 = VNull ∨ ∃ v, first.1.2 = VStr v).
Proof.
  intros Hst first. split; [|by apply getVersion_null_or_string].
  unfold requireVersion, satisfiesVersion.
  pose proof (getVersion_again rt this) as Hagain. fold first in Hagain.
  destruct first as [[this1 version] started] eqn:Hfirst. subst first.
  rewrite Hfirst. cbn [fst snd] in *.
  destruct (satisfies version range); cbn [negb]; [done|].
  rewrite Hagain. by rewrite app_nil_r.
Qed.

Lemma requireVersion_asks_once_witness :
  requireVersion satisfies_example versioned hab ">=1.6.0" =
    (Chained (Instance "hab" (VStr "1.6.1234") (VStr "20230101000000")),
     Instance "hab" (VStr "1.6.1234") (VStr "20230101000000"),
     [ExecFile (Request "hab" [VStr "--version"] initial_options
                  (Dict ∅ ProtoEnv))]) ∧
  requireVersion satisfies_example versioned hab ">=2.0.0" =
    (VersionError "Habitat version must be >=2.0.0, reported version is 1.6.1234",
     Instance "hab" (VStr "1.6.1234") (VStr "20230101000000"),
     [ExecFile (Request "hab" [VStr "--version"] initial_options
                  (Dict ∅ ProtoEnv))]).
Proof.
  split.
  - destruct (requireVersion_asks_once satisfies_example versioned hab ">=1.6.0")
      as [-> _]; [by left|]. vm_compute. reflexivity.
  - destruct (requireVersion_asks_once satisfies_example versioned hab ">=2.0.0")
      as [-> _]; [by left|]. vm_compute. reflexivity.
Defined.

(** X17. When the binary cannot be run, or prints something else than a
    version line, a new instance remembers it: as long as the version
    library refuses [null], [requireVersion] throws the error whose message
    reports the version [null], having started the one process, and the
    instance keeps the mark [false], so that no later call tries again. *)
Theorem requireVersion_unavailable satisfies rt this range :
  let request := Request (i_command this) [VStr "--version"] initial_options
                         (Dict ∅ ProtoEnv) in
  let r := capture_result rt (ExecFile request) in
  i_version this = VNull →
  pr_error r ≠ None ∨ match_version (trim (pr_stdout r)) = None →
  satisfies VNull range = false →
  ∃ this',
    requireVersion satisfies rt this range =
      (VersionError ("Habitat version must be " +:+ range +:+
                     ", reported version is null"),
       this', [ExecFile request]) ∧
    i_version this' = VBool false ∧
    requireVersion satisfies rt this' range =
      (VersionError ("Habitat version must be " +:+ range +:+
                     ", reported version is null"),
       this', []).
Proof.
  intros request r Hnull Hbad Hsat.
  assert (getVersion rt this =
          (Instance (i_command this) (VBool false) (i_build this), VNull,
           [ExecFile request])) as Hfirst.
  { unfold getVersion. rewrite Hnull, exec_version.
    cbn [is_null launched snd fst]. unfold await_exec.
    cbn [snd fst settle rq_options]. fold request. fold r.
    unfold capture_callback, delivered.
    change (buffer_output rt initial_options) with false. cbv iota.
    change (dict_get version_literal "nullOnError" initial_options) with VUndefined.
    cbn [truthy]. destruct (pr_error r) as [e|]; [done|].
    destruct Hbad as [?|Hno]; [done|].
    cbn [subject string_of to_string mbind option_bind]. by rewrite Hno. }
  exists (Instance (i_command this) (VBool false) (i_build this)).
  split_and!; [|done|].
  - unfold requireVersion, satisfiesVersion. rewrite Hfirst. cbn [fst snd].
    rewrite Hsat. cbn [negb].
    rewrite getVersion_cached by done. cbn [i_version truthy].
    by rewrite app_nil_r.
  - unfold requireVersion, satisfiesVersion.
    rewrite !getVersion_cached by done. cbn [i_version truthy].
    by rewrite Hsat.
Qed.

Lemma requireVersion_unavailable_witness :
  ∃ this',
    requireVersion satisfies_example failing hab ">=1.6.0" =
      (VersionError "Habitat version must be >=1.6.0, reported version is null",
       this',
       [ExecFile (Request "hab" [VStr "--version"] initial_options
                    (Dict ∅ ProtoEnv))]) ∧
    i_version this' = VBool false.
Proof.
  destruct (requireVersion_unavailable satisfies_example failing hab ">=1.6.0")
    as (this' & Hfirst & Hmark & _); [reflexivity|by left|reflexivity|].
  exists this'. split; [exact Hfirst|exact Hmark].
Defined.

(** ** The methods for the subcommands *)

Section methods.
Implicit Types (s name : string) (c : ascii).

Lemma toLowerCase_length s : String.length (toLowerCase s) = String.length s.
Proof. induction s as [|c s IH]; cbn; congruence. Qed.

Lemma toLowerCase_fixed s : toLowerCase s = s ↔ is_lower s = true.
Proof.
  induction s as [|c s IH]; [done|]. cbn [toLowerCase is_lower].
  rewrite andb_true_iff, bool_decide_eq_true, <- IH. split.
  - intros [= Hc Hs]. by rewrite Hc at 1.
  - by intros [-> ->].
Qed.

Lemma method_name_plain s : has_hyphen_letter s = false → method_name s = s.
Proof.
  induction s as [|c s IH]; [done|]. cbn [has_hyphen_letter method_name].
  intros [Hc Hs]%orb_false_iff. specialize (IH Hs).
  destruct (is_hyphen c); [|by rewrite IH].
  destruct s as [|letter s]; [done|]. cbn [andb] in Hc. rewrite Hc.
  by rewrite IH.
Qed.

Lemma method_name_length s :
  has_hyphen_letter s = true →
  S (String.length (method_name s)) = String.length s.
Proof.
  induction s as [|c s IH]; [done|]. cbn [has_hyphen_letter method_name].
  destruct (is_hyphen c); cbn [andb orb].
  - destruct s as [|letter s]; [done|].
    destruct (is_letter letter); cbn [orb]; [done|].
    intros Hs. cbn [String.length]. by rewrite (IH Hs).
  - intros Hs. cbn [String.length]. by rewrite (IH Hs).
Qed.

End methods.

(** X18. The method made for a subcommand passes the subcommand itself
    exactly when the name is in lower case and has no hyphen that a letter
    follows.  A name with such a hyphen gives a method that passes a command
    one character shorter, the hyphen being gone: the method for
    [support-bundle] runs [supportbundle]. *)
Theorem method_command_fixed_iff name :
  (method_command name = name ↔
   has_hyphen_letter name = false ∧ is_lower name = true) ∧
  (has_hyphen_letter name = true →
   S (String.length (method_command name)) = String.length name).
Proof.
  assert (has_hyphen_letter name = true →
          S (String.length (method_command name)) = String.length name) as Hlen.
  { intros Hh. unfold method_command.
    by rewrite toLowerCase_length, method_name_length. }
  split; [|done]. unfold method_command. split.
  - intros Heq. destruct (has_hyphen_letter name) eqn:Hh.
    + specialize (Hlen eq_refl). unfold method_command in Hlen.
      rewrite Heq in Hlen. lia.
    + split; [done|]. rewrite method_name_plain in Heq by done.
      by apply toLowerCase_fixed.
  - intros [Hh Hl]. rewrite method_name_plain by done.
    by apply toLowerCase_fixed.
Qed.

Lemma method_command_fixed_iff_witness :
  has_hyphen_letter "support-bundle" = true ∧
  String.length (method_command "support-bundle") = 13 ∧
  method_command "support-bundle" ≠ "support-bundle" ∧
  method_command "pkg" = "pkg".
Proof.
  split; [reflexivity|].
  pose proof (proj2 (method_command_fixed_iff "support-bundle") eq_refl) as Hlen.
  split; [cbn [String.length] in Hlen; lia|]. split.
  - intros Heq%(proj1 (method_command_fixed_iff "support-bundle")).
    by destruct Heq.
  - by apply (proj1 (method_command_fixed_iff "pkg")).
Defined.

(** X19. A method puts its command in front of the caller's arguments, so
    the command of the call is the method's, and every string among the
    caller's arguments that the scan reaches, the first one too, is an
    argument of the subcommand. *)
Theorem method_call_puts_command_first rt this h name args h' line la :
  method_command name ≠ "" →
  call_method rt this h name args = (h', inr (line, la)) →
  rq_file (launch_request la) = i_command this ∧
  rq_args (launch_request la) =
    VStr (method_command name) :: argv_spec h true (scanned args).
Proof.
  intros Hname (st & rq & Hm & _ & ->)%exec_inv.
  rewrite launch_request_dispatch.
  apply marshal_inv in Hm as [Hscan ->]. cbn [rq_file rq_args].
  split; [done|].
  assert (truthy (VStr (method_command name)) = true) as Ht.
  { cbn. by apply negb_true_iff, String.eqb_neq. }
  rewrite scan_cons_string in Hscan by done.
  change (truthy (command initial_state)) with false in Hscan. cbv iota in Hscan.
  apply (scan_spec h) in Hscan as [Hc Ha]; [|done|by left].
  unfold with_command in Hc, Ha. cbn [command commandArgs] in Hc, Ha.
  rewrite Ht in Hc, Ha. unfold prefix_command. rewrite Hc, Ht.
  by rewrite Ha.
Qed.

Lemma method_call_puts_command_first_witness :
  argv_of (call_method quiet hab ∅ "support-bundle" [VStr "now"; VNum (NInt 3 I)])
  = Some [VStr "supportbundle"; VStr "now"; VStr "3"].
Proof.
  destruct (call_method quiet hab ∅ "support-bundle" [VStr "now"; VNum (NInt 3 I)])
    as [h' [e|[line la]]] eqn:He; [vm_compute in He; discriminate|].
  destruct (method_call_puts_command_first quiet hab ∅ "support-bundle"
              [VStr "now"; VNum (NInt 3 I)] h' line la) as [_ Hargs];
    [vm_compute; discriminate|exact He|].
  unfold argv_of. cbn [snd]. rewrite Hargs. reflexivity.
Defined.

(** ** What selects the spawn strategy *)

Section spawn_selection.
Implicit Types (h : gmap nat (list (string * value))) (o : list (string * value)).

Lemma lacks_objects key h args l :
  Forall (λ v, lacks key h v = true) args →
  l ∈ objects_of args →
  has_key key (heap_get h l) = false.
Proof.
  intros Hall Hl. unfold objects_of in Hl.
  apply list_elem_of_bind in Hl as (v & Hv & Hin).
  rewrite Forall_forall in Hall. specialize (Hall v Hin).
  destruct v; try by apply elem_of_nil in Hv.
  apply list_elem_of_singleton in Hv as ->. by apply negb_true_iff in Hall.
Qed.


End spawn_selection.



(** ** The end of the argument list, and the second use of an option map *)

Section reuse.
Implicit Types (h : gmap nat (list (string * value))) (st : scan_state).
Implicit Types (o : list (string * value)) (args pre post : list value).

Lemma scan_cut v post pre : ∀ h st,
  truthy v = false → scan (pre ++ v :: post) h st = scan pre h st.
Proof.
  induction pre as [|w pre IH]; intros h st Hv.
  { cbn [app]. by rewrite scan_cons_falsy. }
  rewrite <- app_comm_cons.
  destruct (truthy w) eqn:Hw; [|by rewrite !scan_cons_falsy].
  destruct (scannable w) eqn:Hsc; [|by rewrite !scan_cons_unsupported].
  destruct (scannable_cases w Hsc) as [(s & -> & _)|[(n & -> & _)|(l & ->)]].
  - rewrite !scan_cons_string by done. destruct (truthy (command st)); by apply IH.
  - rewrite !scan_cons_number by done. by apply IH.
  - rewrite !scan_cons_object. by apply IH.
Qed.

Lemma object_among l args : VObj l ∈ args → l ∈ objects_of args.
Proof.
  intros Hin. unfold objects_of. apply list_elem_of_bind.
  exists (VObj l). split; [by apply list_elem_of_singleton|done].
Qed.

(** After the scan an option map that it reached is the map it was without
    the directives. *)
Lemma scan_reached_stripped args : ∀ h st l,
  Forall (λ v, scannable v = true) (scanned args) →
  l ∈ objects_of (scanned args) →
  heap_get (scan args h st).1 l = strip_directives (heap_get h l).
Proof.
  induction args as [|v args IH]; intros h st l Hsc Hl;
    [by apply elem_of_nil in Hl|].
  cbn [scanned] in Hsc, Hl. destruct (truthy v) eqn:Hv;
    [|by apply elem_of_nil in Hl].
  apply Forall_cons in Hsc as [Hv1 Hsc].
  unfold objects_of in Hl. rewrite bind_cons, elem_of_app in Hl.
  fold (objects_of (scanned args)) in Hl.
  destruct (scannable_cases v Hv1) as [(s & -> & _)|[(n & -> & _)|(l0 & ->)]].
  - destruct Hl as [Hl|Hl]; [by apply elem_of_nil in Hl|].
    rewrite scan_cons_string by done. destruct (truthy (command st)); by apply IH.
  - destruct Hl as [Hl|Hl]; [by apply elem_of_nil in Hl|].
    rewrite scan_cons_number by done. by apply IH.
  - rewrite scan_cons_object.
    destruct (decide (l = l0)) as [->|Hne].
    + destruct (scan_heap_cases args (scan_object l0 h st).1
                  (scan_object l0 h st).2 l0) as [->| ->];
        rewrite scan_object_heap, decide_True by done;
        by rewrite ?strip_directives_idemp.
    + destruct Hl as [Hl|Hl]; [by apply list_elem_of_singleton in Hl|].
      rewrite IH by done. by rewrite scan_object_heap, decide_False.
Qed.

Lemma same_stripped_scan args h st : same_stripped h (scan args h st).1.
Proof.
  intros l. destruct (scan_heap_cases args h st l) as [->| ->];
    [done|apply strip_directives_idemp].
Qed.

Lemma stripped_lacks key o :
  key ∈ deleted_directives → has_key key (strip_directives o) = false.
Proof. intros Hkey. apply has_key_false. rewrite strip_directives_keys. tauto. Qed.

Lemma stripped_options o :
  has_key "$options" (strip_directives o) = has_key "$options" o.
Proof.
  destruct (has_key "$options" o) eqn:Ho.
  - unfold has_key in *. apply bool_decide_eq_true.
    apply bool_decide_eq_true in Ho. apply strip_directives_keys.
    split; [|done]. apply (bool_decide_unpack _). by vm_compute.
  - apply has_key_false. apply has_key_false in Ho.
    rewrite strip_directives_keys. tauto.
Qed.

(** An option map without its directives assigns no option. *)
Lemma closed_under_stripped (P : dict → Prop) o :
  has_key "$options" o = false → closed_under P (strip_directives o).
Proof.
  intros Ho. unfold closed_under.
  rewrite stripped_options, Ho.
  rewrite !stripped_lacks
    by (apply (bool_decide_unpack _); by vm_compute).
  split_and!; done.
Qed.

End reuse.

(** X22. A falsy argument (an empty string, a zero, [null], [undefined],
    [false]) ends the argument list: the call is the call with the arguments
    before it, so that nothing after it is passed on, no option map after
    it is read or changed, and no unsupported argument after it throws. *)
Theorem exec_stops_at_falsy rt this h pre v post :
  truthy v = false →
  exec rt this h (pre ++ v :: post) = exec rt this h pre.
Proof.
  intros Hv. unfold exec, marshal. by rewrite scan_cut.
Qed.

Lemma exec_stops_at_falsy_witness :
  exec quiet hab spawn_unreached
    ([VStr "pkg"; VStr "install"] ++ VStr "" :: [VObj 0; VBool true])
  = exec quiet hab spawn_unreached [VStr "pkg"; VStr "install"].
Proof. by apply exec_stops_at_falsy. Defined.

(** X23. The directives work once: since the call deletes them from the
    caller's option maps, a second call with the same arguments on the store
    that the first one left runs the binary with the same argument vector,
    but directly, with the options of a call without directives and with the
    inherited environment, whatever strategy, options and environment the
    first call had.  (No option map that is reached has [$options], the one
    directive that is not deleted.) *)
Theorem exec_again_forgets_directives rt this h args h1 line1 la1 h2 line2 la2 :
  exec rt this h args = (h1, inr (line1, la1)) →
  exec rt this h1 args = (h2, inr (line2, la2)) →
  Forall (λ v, lacks "$options" h v = true) (scanned args) →
  la2 = ExecFile (Request (i_command this) (rq_args (launch_request la1))
                    initial_options (Dict ∅ ProtoEnv)).
Proof.
  intros (st1 & rq1 & Hm1 & _ & ->)%exec_inv
         (st2 & rq2 & Hm2 & _ & ->)%exec_inv Hlack.
  rewrite launch_request_dispatch.
  apply marshal_inv in Hm1 as [Hscan1 ->].
  apply marshal_inv in Hm2 as [Hscan2 ->]. cbn [rq_args].
  pose proof (scan_ok_scannable _ _ _ _ _ Hscan1) as Hsc.
  assert (∀ l, l ∈ objects_of (scanned args) →
               heap_get h1 l = strip_directives (heap_get h l)) as Hstripped.
  { intros l Hl. pose proof (scan_reached_stripped args h initial_state l Hsc Hl) as Hr.
    by rewrite Hscan1 in Hr. }
  assert (same_stripped h h1) as Hsame.
  { pose proof (same_stripped_scan args h initial_state) as Hs.
    by rewrite Hscan1 in Hs. }
  assert (prefix_command st2 = prefix_command st1) as Hargs.
  { apply (scan_spec h) in Hscan1 as [Hc1 Ha1]; [|done|by right].
    pose proof Hscan2 as [Hc2 Ha2]%(scan_spec h); [|done|by right].
    unfold prefix_command. by rewrite Hc1, Hc2, Ha1, Ha2. }
  assert (execOptions st2 = initial_options) as Hopts.
  { apply (scan_from_start (λ d, d = initial_options) h1 args h2 st2);
      [done|done|].
    intros l Hl. rewrite (Hstripped l Hl). apply closed_under_stripped.
    by apply (lacks_objects _ _ _ _ Hlack). }
  assert (commandEnv st2 = commandEnv initial_state) as Henv.
  { apply (scan_env_kept h1 args h1 initial_state h2 st2); [by intros ??| |done].
    apply Forall_forall. intros v Hin. destruct v; try done.
    cbn [lacks]. rewrite (Hstripped _ (object_among _ _ Hin)).
    rewrite stripped_lacks; [done|].
    apply (bool_decide_unpack _). by vm_compute. }
  unfold dispatch, prepare_env. cbn [rq_options]. rewrite Hopts, Henv, Hargs.
  change (dict_get h2 "spawn" initial_options) with VUndefined.
  change (dict_get h2 "shell" initial_options) with VUndefined.
  change (dict_get h2 "preserveEnv" initial_options) with VUndefined.
  reflexivity.
Qed.

Lemma exec_again_forgets_directives_witness :
  ∃ h1 line rq,
    exec quiet hab shell_example [VStr "pkg"; VObj 0; VStr "path"]
      = (h1, inr (line, ExecShell ("hab " +:+ line) rq)) ∧
    exec quiet hab h1 [VStr "pkg"; VObj 0; VStr "path"]
      = (h1, inr (line, ExecFile (Request "hab" (rq_args rq) initial_options
                                    (Dict ∅ ProtoEnv)))).
Proof.
  destruct (exec quiet hab shell_example [VStr "pkg"; VObj 0; VStr "path"])
    as [h1 [e|[line1 la1]]] eqn:He1; [vm_compute in He1; discriminate|].
  destruct (exec quiet hab h1 [VStr "pkg"; VObj 0; VStr "path"])
    as [h2 [e|[line2 la2]]] eqn:He2.
  { vm_compute in He1. by simplify_eq. }
  pose proof (exec_again_forgets_directives quiet hab shell_example
                [VStr "pkg"; VObj 0; VStr "path"] h1 line1 la1 h2 line2 la2
                He1 He2) as Hla2.
  specialize (Hla2 ltac:(repeat constructor)).
  exists h1, line1, (launch_request la1). split.
  - vm_compute in He1. by simplify_eq.
  - rewrite He2, Hla2. vm_compute in He1. simplify_eq.
    vm_compute in He2. by simplify_eq.
Defined.
